(** * The trigger registry of django-pgtrigger ([pgtrigger/registry.py])

    A shallow embedding of [_Registry] (a [collections.UserDict] keyed by
    trigger URI), of the module-level functions [set], [delete] and
    [registered], and of the part of Django's model options that the
    registry reads and mutates ([model._meta.triggers] and
    [model._meta.original_attrs["triggers"]]). *)

From Stdlib Require Import Ascii.
From stdpp Require Import gmap strings list fin_maps.

(** ** Python strings *)

(** [s.split(sep)] for a one-character separator: the pieces between the
    occurrences of [sep]; never empty ([''.split(':') == ['']]). *)
Fixpoint split (sep : ascii) (s : string) : list string :=
  match s with
  | EmptyString => [EmptyString]
  | String c s' =>
      if decide (c = sep) then EmptyString :: split sep s'
      else match split sep s' with
           | [] => [String c EmptyString]
           | piece :: pieces => String c piece :: pieces
           end
  end.

(** The f-string [f"{label}:{name}"] of [__setitem__]. *)
Definition format_uri (label name : string) : string :=
  label +:+ ":" +:+ name.

(** The characters of a string, to say that it holds a colon or not. *)
Definition chars (s : string) : list ascii := String.list_ascii_of_string s.

(** ** Python dicts and lists

    A [dict] keeps its keys in insertion order: assigning to a key that is
    present replaces the value where it stands, a new key goes last. *)
Section dict.
Context {V : Type}.

Fixpoint dict_get (k : string) (d : list (string * V)) : option V :=
  match d with
  | [] => None
  | (k', v) :: d' => if decide (k' = k) then Some v else dict_get k d'
  end.

Fixpoint dict_set (k : string) (v : V) (d : list (string * V))
  : list (string * V) :=
  match d with
  | [] => [(k, v)]
  | (k', v') :: d' =>
      if decide (k' = k) then (k, v) :: d' else (k', v') :: dict_set k v d'
  end.

Fixpoint dict_del (k : string) (d : list (string * V)) : list (string * V) :=
  match d with
  | [] => []
  | (k', v') :: d' =>
      if decide (k' = k) then d' else (k', v') :: dict_del k d'
  end.

Definition dict_keys (d : list (string * V)) : list string := d.*1.

(** [k in d] *)
Definition dict_contains (k : string) (d : list (string * V)) : bool :=
  bool_decide (k ∈ dict_keys d).
End dict.

Section pylist.
Context {A : Type} `{EqDecision A}.

(** [x in l], by [==] on the elements. *)
Definition py_in (x : A) (l : list A) : bool := bool_decide (x ∈ l).

(** What [l.remove(x)] leaves when [x] is in [l]: the first element equal
    to [x] is dropped. *)
Fixpoint remove_first (x : A) (l : list A) : list A :=
  match l with
  | [] => []
  | y :: l' => if decide (y = x) then l' else y :: remove_first x l'
  end.

(** Number of elements of [l] equal to [x]. *)
Fixpoint count (x : A) (l : list A) : nat :=
  match l with
  | [] => 0
  | y :: l' => (if decide (y = x) then 1 else 0) + count x l'
  end.
End pylist.

(** ** Exceptions and results *)

Inductive exn : Type :=
  | MalformedURI            (* ValueError raised by __getitem__ *)
  | NotFound                (* KeyError raised by __getitem__ *)
  | DuplicateName           (* KeyError: trigger name already used *)
  | DuplicateFunctionId     (* KeyError: function name already in use *)
  | AssertionError          (* the key assertion of __setitem__ *)
  | AttributeError          (* model._meta has no attribute triggers *)
  | ValueError_remove       (* list.remove(x): x not in list *)
  | KeyError_original_attrs (* original_attrs has no key "triggers" *).

#[global] Instance exn_eq_dec : EqDecision exn.
Proof. solve_decision. Defined.

Inductive result (A : Type) : Type :=
  | Ok (a : A)
  | Raise (e : exn).
Arguments Ok {A} a.
Arguments Raise {A} e.

(** A Python list object is named by its address in the heap. *)
Definition loc := nat.

(** What the registry asks of the model classes (Django) and of the trigger
    objects ([pgtrigger.core.Trigger]): [model._meta.label],
    [model._meta.db_table], [trigger.name] and [trigger.get_pgid(model)]. *)
Class Collaborators (Model Trigger : Type) : Type := {
  label : Model → string;
  db_table : Model → string;
  name : Trigger → string;
  get_pgid : Trigger → Model → string
}.

Section registry.
(** Models are compared by identity and are keys of the metadata;
    triggers are compared by [==].  A [Trigger] object is truthy (the
    class has neither [__bool__] nor [__len__]), so [not found_trigger]
    says that the lookup returned [None]. *)
Context {Model : Type} `{Countable Model}.
Context {Trigger : Type} `{EqDecision Trigger}.
Context `{!Collaborators Model Trigger}.

(** The process state the registry works on.
    - [data] is [_registry.data], the dict behind the [UserDict];
    - [meta_triggers] gives, for the models whose [_meta] has the attribute
      [triggers], the list object it is bound to;
    - [original_attrs] gives, for the models whose
      [_meta.original_attrs] has the key ["triggers"], the list object
      stored there;
    - [heap] holds the list objects, so that two names of one list see
      each other's [remove];
    - [migrations] is what [features.migrations()] returns. *)
Record World : Type := mkWorld {
  data : list (string * (Model * Trigger));
  meta_triggers : gmap Model loc;
  original_attrs : gmap Model loc;
  heap : list (list Trigger);
  migrations : bool
}.

(** The content of the list object at [l].  Every address a program holds
    is in the heap ([heap_closed] below, kept by every call); outside it
    the content reads as empty. *)
Definition deref (h : list (list Trigger)) (l : loc) : list Trigger :=
  default [] (h !! l).

(** [getattr(model._meta, "triggers", [])] *)
Definition getattr_triggers (w : World) (model : Model) : list Trigger :=
  match meta_triggers w !! model with
  | Some l => deref (heap w) l
  | None => []
  end.

(** [model._meta.original_attrs.get("triggers", [])] *)
Definition original_attrs_get (w : World) (model : Model) : list Trigger :=
  match original_attrs w !! model with
  | Some l => deref (heap w) l
  | None => []
  end.

(** Computations: a state that survives an exception. *)
Definition M (A : Type) : Type := World → result A * World.

#[global] Instance M_ret : MRet M := λ A a w, (Ok a, w).
#[global] Instance M_bind : MBind M := λ A B k m w,
  match m w with
  | (Ok a, w') => k a w'
  | (Raise e, w') => (Raise e, w')
  end.
Definition raise {A} (e : exn) : M A := λ w, (Raise e, w).
Definition gets {A} (f : World → A) : M A := λ w, (Ok (f w), w).
Definition modify (f : World → World) : M unit := λ w, (Ok (), f w).
Definition when (b : bool) (m : M unit) : M unit :=
  if b then m else mret ().

(** *** The two derived views *)

(** [{trigger.get_pgid(model) for model, trigger in self.values()}] *)
Definition pg_function_names (w : World) : gset string :=
  list_to_set ((λ e : string * (Model * Trigger), get_pgid e.2.2 e.2.1) <$> data w).

(** [{(model._meta.db_table, trigger.name): trigger for ...}]: the dict
    is filled in the order of [values()], a later entry overwrites. *)
Definition by_db_table (w : World) : gmap (string * string) Trigger :=
  foldl (λ acc (e : string * (Model * Trigger)),
           <[(db_table e.2.1, name e.2.2) := e.2.2]> acc) ∅ (data w).

(** *** State updates *)

Definition set_data (f : list (string * (Model * Trigger)) →
                         list (string * (Model * Trigger))) (w : World) : World :=
  mkWorld (f (data w)) (meta_triggers w) (original_attrs w) (heap w)
          (migrations w).

(** [model._meta.triggers = list(live) + [trigger]]: a new list object. *)
Definition assign_triggers (model : Model) (l : list Trigger) (w : World)
  : World :=
  mkWorld (data w) (<[model := length (heap w)]> (meta_triggers w))
          (original_attrs w) (heap w ++ [l]) (migrations w).

(** [model._meta.original_attrs["triggers"] = list(orig) + [trigger]] *)
Definition assign_original (model : Model) (l : list Trigger) (w : World)
  : World :=
  mkWorld (data w) (meta_triggers w)
          (<[model := length (heap w)]> (original_attrs w))
          (heap w ++ [l]) (migrations w).

(** The list object at [l] loses its first element equal to [trigger]. *)
Definition heap_remove (l : loc) (trigger : Trigger) (w : World) : World :=
  mkWorld (data w) (meta_triggers w) (original_attrs w)
          (<[l := remove_first trigger (deref (heap w) l)]> (heap w))
          (migrations w).

(** [lst.remove(trigger)] on the list object at [l]. *)
Definition list_remove (l : loc) (trigger : Trigger) : M unit :=
  λ w, if py_in trigger (deref (heap w) l)
       then (Ok (), heap_remove l trigger w)
       else (Raise ValueError_remove, w).

(** *** [_Registry] *)

Definition __getitem__ (key : string) : M (Model * Trigger) :=
  if bool_decide (length (split ":"%char key) = 1) then raise MalformedURI
  else
    present ← gets (λ w, dict_contains key (data w));
    if negb present then raise NotFound
    else
      v ← gets (λ w, dict_get key (data w));
      match v with
      | Some value => mret value
      | None => raise NotFound
      end.

Definition __setitem__ (key : string) (value : Model * Trigger) : M unit :=
  let '(model, trigger) := value in
  (if bool_decide (format_uri (label model) (name trigger) = key)
   then mret () else raise AssertionError);;
  found_trigger ← gets (λ w, by_db_table w !! (db_table model, name trigger));
  when (negb (bool_decide (is_Some found_trigger))
        || bool_decide (found_trigger ≠ Some trigger))
    (when (bool_decide (is_Some found_trigger)) (raise DuplicateName);;
     names ← gets pg_function_names;
     when (bool_decide (get_pgid trigger model ∈ names))
       (raise DuplicateFunctionId));;
  sync ← gets migrations;
  when sync
    (live ← gets (λ w, getattr_triggers w model);
     when (negb (py_in trigger live))
       (modify (assign_triggers model (live ++ [trigger])));;
     orig ← gets (λ w, original_attrs_get w model);
     when (negb (py_in trigger orig))
       (modify (assign_original model (orig ++ [trigger]))));;
  modify (set_data (dict_set key value)).

Definition __delitem__ (key : string) : M unit :=
  value ← __getitem__ key;
  let '(model, trigger) := value in
  modify (set_data (dict_del key));;
  sync ← gets migrations;
  when sync
    (attr ← gets (λ w, meta_triggers w !! model);
     match attr with
     | None => raise AttributeError
     | Some live =>
         list_remove live trigger;;
         item ← gets (λ w, original_attrs w !! model);
         match item with
         | None => raise KeyError_original_attrs
         | Some orig =>
             present ← gets (λ w, py_in trigger (deref (heap w) orig));
             when present (list_remove orig trigger)
         end
     end).

(** *** The module's functions, on the one registry of the process *)

Definition set (uri : string) (model : Model) (trigger : Trigger) : M unit :=
  __setitem__ uri (model, trigger).

Definition delete (uri : string) : M unit := __delitem__ uri.

(** [[_registry[uri] for uri in uris or _registry.keys()]] *)
Fixpoint lookup_all (uris : list string) : M (list (Model * Trigger)) :=
  match uris with
  | [] => mret []
  | uri :: uris' =>
      v ← __getitem__ uri;
      vs ← lookup_all uris';
      mret (v :: vs)
  end.

Definition registered (uris : list string) : M (list (Model * Trigger)) :=
  λ w, lookup_all (match uris with [] => dict_keys (data w) | _ => uris end) w.

(** *** What the calls do to the world, as functions

    The block of [__setitem__] under [features.migrations()], and the
    block of [__delitem__], written as functions on worlds;
    [setitem_eq] and [delitem_eq] below show that the methods compute
    them. *)

Definition mirror_live (model : Model) (trigger : Trigger) (w : World)
  : World :=
  if py_in trigger (getattr_triggers w model) then w
  else assign_triggers model (getattr_triggers w model ++ [trigger]) w.

Definition mirror_original (model : Model) (trigger : Trigger) (w : World)
  : World :=
  if py_in trigger (original_attrs_get w model) then w
  else assign_original model (original_attrs_get w model ++ [trigger]) w.

Definition mirror_set (model : Model) (trigger : Trigger) (w : World)
  : World :=
  if migrations w then mirror_original model trigger (mirror_live model trigger w)
  else w.

Definition mirror_delete (model : Model) (trigger : Trigger) (w : World)
  : result unit * World :=
  if migrations w then
    match meta_triggers w !! model with
    | None => (Raise AttributeError, w)
    | Some live =>
        if py_in trigger (deref (heap w) live) then
          let w' := heap_remove live trigger w in
          match original_attrs w !! model with
          | None => (Raise KeyError_original_attrs, w')
          | Some orig =>
              if py_in trigger (deref (heap w') orig)
              then (Ok (), heap_remove orig trigger w')
              else (Ok (), w')
          end
        else (Raise ValueError_remove, w)
    end
  else (Ok (), w).

(** *** Sequences of calls *)

Inductive call : Type :=
  | CallSet (uri : string) (model : Model) (trigger : Trigger)
  | CallDelete (uri : string).

Definition exec (c : call) : M unit :=
  match c with
  | CallSet uri model trigger => set uri model trigger
  | CallDelete uri => delete uri
  end.

(** Runs the calls in order, as long as each returns and each passes
    [allowed] in the world it is made in. *)
Fixpoint run_if (allowed : World → call → bool) (calls : list call)
  (w : World) : option World :=
  match calls with
  | [] => Some w
  | c :: calls' =>
      if allowed w c then
        match exec c w with
        | (Ok _, w') => run_if allowed calls' w'
        | (Raise _, _) => None
        end
      else None
  end.

(** A sequence of successful calls. *)
Definition run : list call → World → option World := run_if (λ _ _, true).

(** A [set] registers afresh when no stored entry has its (table, name)
    pair, or when the registry already holds its entry under its URI. *)
Definition afresh (w : World) (c : call) : bool :=
  match c with
  | CallSet uri model trigger =>
      bool_decide (by_db_table w !! (db_table model, name trigger) = None)
      || bool_decide (dict_get uri (data w) = Some (model, trigger))
  | CallDelete _ => true
  end.

(** The worlds a process can be in: the registry starts empty, changes
    through [set] and [delete] (whatever they return), and the models,
    their metadata and the feature flag belong to the application. *)
Inductive reachable : World → Prop :=
  | reachable_start w : data w = [] → reachable w
  | reachable_call w c : reachable w → reachable (exec c w).2
  | reachable_env w w' : reachable w → data w' = data w → reachable w'.

(** *** Invariants of the catalog *)

Definition keys_nodup (w : World) : Prop := NoDup (dict_keys (data w)).

Definition key_consistent (w : World) : Prop :=
  ∀ k m t, (k, (m, t)) ∈ data w → k = format_uri (label m) (name t).

Definition name_unique (w : World) : Prop :=
  ∀ k1 m1 t1 k2 m2 t2,
    (k1, (m1, t1)) ∈ data w → (k2, (m2, t2)) ∈ data w →
    db_table m1 = db_table m2 → name t1 = name t2 → t1 = t2.

Definition catalog_ok (w : World) : Prop :=
  keys_nodup w ∧ key_consistent w ∧ name_unique w.

(** No two distinct stored entries produce the same function
    identifier. *)
Definition pgid_unique (w : World) : Prop :=
  ∀ k1 m1 t1 k2 m2 t2,
    (k1, (m1, t1)) ∈ data w → (k2, (m2, t2)) ∈ data w →
    (k1, (m1, t1)) ≠ (k2, (m2, t2)) → get_pgid t1 m1 ≠ get_pgid t2 m2.

(** No name of a list object points outside the heap. *)
Definition heap_closed (w : World) : Prop :=
  (∀ m l, meta_triggers w !! m = Some l → l < length (heap w)) ∧
  (∀ m l, original_attrs w !! m = Some l → l < length (heap w)).

End registry.

(** ** The decorator *)

Section decorator.
Context {Model : Type} `{Countable Model}.
Context {Trigger : Type} `{EqDecision Trigger}.

(** [trigger.register(model_class)], a method of [pgtrigger.core.Trigger]:
    whatever it does to the world, and whether it returns or raises. *)
Variable trigger_register :
  Trigger → Model → M (Model := Model) (Trigger := Trigger) unit.

(** The loop of [_model_wrapper]: [for trigger in triggers:
    trigger.register(model_class)]. *)
Fixpoint register_each (triggers : list Trigger) (model_class : Model)
  : M (Model := Model) (Trigger := Trigger) unit :=
  match triggers with
  | [] => mret ()
  | trigger :: triggers' =>
      trigger_register trigger model_class;;
      register_each triggers' model_class
  end.

(** [register] applied to the triggers returns [_model_wrapper], which
    registers them and returns the class it was given. *)
Definition register (triggers : list Trigger)
  : Model → M (Model := Model) (Trigger := Trigger) Model :=
  λ model_class, register_each triggers model_class;; mret model_class.

End decorator.

(** ** A concrete instance

    Four models, given with their label and table; triggers given by their
    name and a number standing for the rest of the definition; a function
    identifier derived from the table and the name. *)
Module Example.
Inductive model : Type := foo | foo_proxy | log | log_x.
Abbreviation trigger := (string * nat)%type.

#[export] Instance model_eq_dec : EqDecision model.
Proof. solve_decision. Defined.

Definition model_index (m : model) : nat :=
  match m with foo => 0 | foo_proxy => 1 | log => 2 | log_x => 3 end.

Definition model_at (n : nat) : model :=
  match n with 0 => foo | 1 => foo_proxy | 2 => log | _ => log_x end.

#[export] Instance model_countable : Countable model.
Proof.
  refine (inj_countable' model_index model_at _). intros m. by destruct m.
Defined.

Definition model_label (m : model) : string :=
  match m with
  | foo => "app.Foo" | foo_proxy => "app.FooProxy"
  | log => "app.Log" | log_x => "app.LogX"
  end.

Definition model_table (m : model) : string :=
  match m with
  | foo => "foo" | foo_proxy => "foo" | log => "log" | log_x => "x_log"
  end.

(** Modelled from the spec: [Trigger.get_pgid] is defined in
    [pgtrigger.core], which is not among the sources; the specification
    describes the identifier as "a deterministic, table-and-name-derived
    string".  Here: the prefix, the trigger name and the table. *)
Definition table_name_pgid (t : trigger) (m : model) : string :=
  "pgtrigger_" +:+ t.1 +:+ "_" +:+ model_table m.

#[export] Instance collaborators : Collaborators model trigger := {|
  label := model_label;
  db_table := model_table;
  name t := t.1;
  get_pgid := table_name_pgid
|}.

Definition world : Type := World (Model := model) (Trigger := trigger).
Definition empty (sync : bool) : world := mkWorld [] ∅ ∅ [] sync.

Definition t1 : trigger := ("t1", 0).
Definition t1' : trigger := ("t1", 1).
(** On [log] and [log_x], two (table, name) pairs with one function
    identifier. *)
Definition check_x : trigger := ("check_x", 0).
Definition check : trigger := ("check", 0).

(** [t1] registered on [foo], mirrored or not. *)
Definition foo_registered (sync : bool) : world :=
  (set "app.Foo:t1" foo t1 (empty sync)).2.

(** [check] registered on [log_x]. *)
Definition log_x_registered : world :=
  (set "app.LogX:check" log_x check (empty true)).2.

(** [t1] registered on [foo], in the live collection, while the
    original-declaration collection was rebuilt without it. *)
Definition foo_diverged : world :=
  mkWorld [("app.Foo:t1", (foo, t1))] {[foo := 0]} {[foo := 1]} [[t1]; []] true.

(** The same with no original-declaration collection at all. *)
Definition foo_undeclared : world :=
  mkWorld [("app.Foo:t1", (foo, t1))] {[foo := 0]} ∅ [[t1]] true.

(** [t1] registered on [foo] while synchronization was off, which is
    then switched on. *)
Definition foo_unmirrored : world :=
  mkWorld [("app.Foo:t1", (foo, t1))] ∅ ∅ [] true.
(** [t1] declared in the [Meta] of [foo] and registered: Django binds
    [_meta.triggers] and [original_attrs["triggers"]] to the one declared
    list. *)
Definition foo_declared : world :=
  mkWorld [("app.Foo:t1", (foo, t1))] {[foo := 0]} {[foo := 0]} [[t1]] true.

(** Modelled from the spec: [Trigger.register] is defined in
    [pgtrigger.core], which is not among the sources; by the specification
    the decorator "calls set once per trigger, using a URI derived from the
    owner's namespace and each trigger's name". *)
Definition register_by_set (t : trigger) (m : model) :=
  set (format_uri (label m) (name t)) m t.
End Example.

(** * Properties *)

(** ** Strings *)

Lemma split_nonempty sep s : split sep s ≠ [].
Proof.
  destruct s as [|c s]; simpl; [done|].
  case_decide; [done|]. by destruct (split sep s).
Qed.

(** [len(key.split(":")) == 1] says that [key] holds no colon. *)
Lemma split_length_one sep s :
  length (split sep s) = 1 ↔ sep ∉ chars s.
Proof.
  unfold chars. induction s as [|c s IH]; simpl.
  - split; [intros _; apply not_elem_of_nil | done].
  - rewrite not_elem_of_cons. case_decide as Hc.
    + subst c. split; [|intuition congruence].
      pose proof (split_nonempty sep s) as Hne.
      destruct (split sep s); simpl; [done | lia].
    + destruct (split sep s) as [|p ps] eqn:Hs.
      * by destruct (split_nonempty sep s).
      * simpl in *. rewrite IH. intuition congruence.
Qed.

Lemma chars_app s1 s2 : chars (s1 +:+ s2) = chars s1 ++ chars s2.
Proof.
  unfold chars. induction s1 as [|c s1 IH]; simpl; [done|]. by rewrite IH.
Qed.

Lemma format_uri_colon l n : ":"%char ∈ chars (format_uri l n).
Proof.
  unfold format_uri. rewrite chars_app, elem_of_app. right.
  rewrite chars_app, elem_of_app. left. unfold chars. simpl. set_solver.
Qed.

(** ** Dicts *)

Section dict_facts.
Context {V : Type}.
Implicit Types (k : string) (v : V) (d : list (string * V)).

Lemma dict_get_elem k v d : dict_get k d = Some v → (k, v) ∈ d.
Proof.
  induction d as [|[k' v'] d IH]; simpl; [done|].
  case_decide; intros Hg; simplify_eq; [left | right; auto].
Qed.

Lemma dict_get_None k d : dict_get k d = None ↔ k ∉ dict_keys d.
Proof.
  unfold dict_keys. induction d as [|[k' v'] d IH]; simpl.
  - split; [intros _; apply not_elem_of_nil | done].
  - rewrite not_elem_of_cons. case_decide; intuition congruence.
Qed.

Lemma dict_contains_get k d :
  dict_contains k d = true ↔ is_Some (dict_get k d).
Proof.
  unfold dict_contains. rewrite bool_decide_eq_true.
  rewrite <- not_eq_None_Some, dict_get_None.
  split; [intuition congruence|]. intros Hn. by destruct (decide (k ∈ dict_keys d)).
Qed.

Lemma elem_get_nodup k v d :
  NoDup (dict_keys d) → (k, v) ∈ d → dict_get k d = Some v.
Proof.
  unfold dict_keys. induction d as [|[k' v'] d IH]; simpl.
  - by intros _ ?%elem_of_nil.
  - rewrite NoDup_cons. intros [Hk Hd] Hin.
    apply elem_of_cons in Hin as [Heq|Hin].
    + simplify_eq. by rewrite decide_True.
    + case_decide; [|by auto]. subst k'.
      destruct Hk. apply list_elem_of_fmap. by exists (k, v).
Qed.

Lemma dict_get_set_eq k v d : dict_get k (dict_set k v d) = Some v.
Proof.
  induction d as [|[k' v'] d IH]; simpl.
  - by rewrite decide_True.
  - case_decide; simpl; [by rewrite decide_True | by rewrite decide_False].
Qed.

Lemma dict_get_set_ne k k' v d :
  k ≠ k' → dict_get k' (dict_set k v d) = dict_get k' d.
Proof.
  intros Hne. induction d as [|[k0 v0] d IH]; simpl.
  - by rewrite decide_False.
  - case_decide; simpl.
    + subst k0. by rewrite !decide_False.
    + by rewrite IH.
Qed.

(** Storing again what a key already holds changes nothing. *)
Lemma dict_set_id k v d : dict_get k d = Some v → dict_set k v d = d.
Proof.
  induction d as [|[k' v'] d IH]; simpl; [done|].
  case_decide; intros Hg; simplify_eq; [done | by rewrite IH].
Qed.

Lemma dict_keys_set k v d :
  dict_keys (dict_set k v d)
  = if decide (k ∈ dict_keys d) then dict_keys d else dict_keys d ++ [k].
Proof.
  unfold dict_keys. induction d as [|[k' v'] d IH].
  - rewrite decide_False; [done | apply not_elem_of_nil].
  - cbn [dict_set fmap list_fmap fst].
    destruct (decide (k' = k)) as [->|Hne].
    + rewrite decide_True; [done | left].
    + cbn [fmap list_fmap fst]. rewrite IH.
      destruct (decide (k ∈ d.*1)) as [Hin|Hin].
      * rewrite decide_True; [done | by right].
      * rewrite decide_False; [done|]. rewrite not_elem_of_cons. intuition congruence.
Qed.

Lemma dict_set_nodup k v d :
  NoDup (dict_keys d) → NoDup (dict_keys (dict_set k v d)).
Proof.
  intros Hd. rewrite dict_keys_set. case_decide; [done|].
  apply NoDup_app. split_and!; [done | | apply NoDup_singleton].
  intros x Hx ->%list_elem_of_singleton. done.
Qed.

Lemma elem_dict_set k v k' v' d :
  (k', v') ∈ dict_set k v d → (k', v') = (k, v) ∨ (k', v') ∈ d.
Proof.
  induction d as [|[k0 v0] d IH]; simpl.
  - intros ->%list_elem_of_singleton. by left.
  - destruct (decide (k0 = k)) as [->|Hne].
    + intros [Heq|Hin]%elem_of_cons; [by left | right; by right].
    + intros [Heq|Hin]%elem_of_cons; [right; rewrite Heq; left|].
      destruct (IH Hin); [by left | right; by right].
Qed.

Lemma elem_dict_set_nodup k v k' v' d :
  NoDup (dict_keys d) →
  (k', v') ∈ dict_set k v d → (k', v') = (k, v) ∨ (k' ≠ k ∧ (k', v') ∈ d).
Proof.
  intros Hd Hin. apply (elem_get_nodup _ _ _ (dict_set_nodup k v d Hd)) in Hin.
  destruct (decide (k' = k)) as [->|Hne].
  - rewrite dict_get_set_eq in Hin. left. congruence.
  - rewrite dict_get_set_ne in Hin by done. right. eauto using dict_get_elem.
Qed.



Lemma elem_dict_set_other k v k' v' d :
  k' ≠ k → (k', v') ∈ d → (k', v') ∈ dict_set k v d.
Proof.
  intros Hne. induction d as [|[k0 v0] d IH]; simpl.
  - by intros ?%elem_of_nil.
  - destruct (decide (k0 = k)) as [->|Hne0].
    + intros [Heq|Hin]%elem_of_cons; [congruence | by right].
    + intros [Heq|Hin]%elem_of_cons; [rewrite Heq; left | right; auto].
Qed.

Lemma elem_dict_set_stored k v d : (k, v) ∈ dict_set k v d.
Proof.
  apply dict_get_elem.
  apply dict_get_set_eq.
Qed.

Lemma elem_dict_del k k' v' d : (k', v') ∈ dict_del k d → (k', v') ∈ d.
Proof.
  induction d as [|[k0 v0] d IH]; simpl; [done|].
  destruct (decide (k0 = k)) as [->|Hne].
  - by right.
  - intros [Heq|Hin]%elem_of_cons; [rewrite Heq; left | right; auto].
Qed.

Lemma dict_keys_del_sub k d x :
  x ∈ dict_keys (dict_del k d) → x ∈ dict_keys d.
Proof.
  unfold dict_keys. intros ([k' v'] & -> & Hin)%list_elem_of_fmap.
  apply list_elem_of_fmap. exists (k', v'). eauto using elem_dict_del.
Qed.

Lemma dict_del_nodup k d :
  NoDup (dict_keys d) → NoDup (dict_keys (dict_del k d)).
Proof.
  induction d as [|[k0 v0] d IH]; simpl; [done|].
  rewrite NoDup_cons. intros [Hk Hd].
  destruct (decide (k0 = k)) as [->|Hne]; [done|].
  change (NoDup (k0 :: dict_keys (dict_del k d))).
  apply NoDup_cons. split; [|auto].
  intros Hin. apply Hk. by apply dict_keys_del_sub in Hin.
Qed.

Lemma dict_get_del_eq k d :
  NoDup (dict_keys d) → dict_get k (dict_del k d) = None.
Proof.
  induction d as [|[k0 v0] d IH]; simpl; [done|].
  rewrite NoDup_cons. intros [Hk Hd].
  destruct (decide (k0 = k)) as [->|Hne].
  - by apply dict_get_None.
  - simpl. rewrite decide_False by done. auto.
Qed.

End dict_facts.

(** ** Lists *)

Section pylist_facts.
Context {A : Type} `{EqDecision A}.
Implicit Types (x : A) (l : list A).

Lemma py_in_true x l : py_in x l = true ↔ x ∈ l.
Proof. apply bool_decide_eq_true. Qed.

Lemma py_in_false x l : py_in x l = false ↔ x ∉ l.
Proof. apply bool_decide_eq_false. Qed.

Lemma count_app x l1 l2 : count x (l1 ++ l2) = count x l1 + count x l2.
Proof. induction l1 as [|y l1 IH]; simpl; [done|]. rewrite IH. lia. Qed.

Lemma count_zero x l : count x l = 0 ↔ x ∉ l.
Proof.
  induction l as [|y l IH]; simpl.
  - split; [intros _; apply not_elem_of_nil | done].
  - rewrite not_elem_of_cons. case_decide; [|intuition congruence].
    split; [lia | intuition congruence].
Qed.

Lemma count_pos x l : 0 < count x l ↔ x ∈ l.
Proof.
  destruct (decide (x ∈ l)) as [Hin|Hin].
  - split; [done|]. intros _.
    destruct (count x l) eqn:Hc; [by apply count_zero in Hc | lia].
  - apply count_zero in Hin as Hc. rewrite Hc. split; [lia | done].
Qed.

Lemma count_single x : count x [x] = 1.
Proof. simpl. by rewrite decide_True. Qed.

(** [remove] takes out exactly one copy. *)
Lemma count_remove_first x l :
  x ∈ l → S (count x (remove_first x l)) = count x l.
Proof.
  induction l as [|y l IH]; simpl.
  - by intros ?%elem_of_nil.
  - intros Hin. destruct (decide (y = x)) as [->|Hne]; [done|].
    simpl. rewrite decide_False by done.
    apply elem_of_cons in Hin as [?|Hin]; [congruence | auto].
Qed.
End pylist_facts.

(** ** The registry *)

Section registry_facts.
Context {Model : Type} `{Countable Model}.
Context {Trigger : Type} `{EqDecision Trigger}.
Context `{!Collaborators Model Trigger}.

Abbreviation World := (World (Model := Model) (Trigger := Trigger)).

Implicit Types (w : World) (m : Model) (t : Trigger) (uri key : string).

(** *** The methods as case analyses *)

Lemma getitem_eq key w :
  __getitem__ key w =
    if decide (":"%char ∈ chars key) then
      match dict_get key (data w) with
      | Some value => (Ok value, w)
      | None => (Raise NotFound, w)
      end
    else (Raise MalformedURI, w).
Proof.
  unfold __getitem__. case_bool_decide as Hs.
  - apply split_length_one in Hs. by rewrite decide_False.
  - rewrite split_length_one in Hs. apply dec_stable in Hs.
    rewrite decide_True by done.
    unfold mbind, M_bind, gets, raise, mret, M_ret.
    destruct (dict_contains key (data w)) eqn:Hc; simpl.
    + by destruct (dict_get key (data w)).
    + destruct (dict_get key (data w)) eqn:Hg; [|done].
      assert (dict_contains key (data w) = true) as Ht
        by (apply dict_contains_get; eauto).
      congruence.
Qed.

Lemma setitem_eq key m t w :
  __setitem__ key (m, t) w =
    if decide (format_uri (label m) (name t) = key) then
      match by_db_table w !! (db_table m, name t) with
      | Some found =>
          if decide (found = t)
          then (Ok (), set_data (dict_set key (m, t)) (mirror_set m t w))
          else (Raise DuplicateName, w)
      | None =>
          if decide (get_pgid t m ∈ pg_function_names w)
          then (Raise DuplicateFunctionId, w)
          else (Ok (), set_data (dict_set key (m, t)) (mirror_set m t w))
      end
    else (Raise AssertionError, w).
Proof.
  unfold __setitem__, mirror_set, mirror_original, mirror_live.
  unfold when, mbind, M_bind, gets, modify, mret, M_ret, raise.
  case_bool_decide as Hk; [rewrite decide_True by done | by rewrite decide_False].
  destruct (by_db_table w !! (db_table m, name t)) as [found|] eqn:Hf.
  - rewrite (bool_decide_eq_true_2 (is_Some (Some found))) by eauto.
    simpl negb. rewrite orb_false_l.
    destruct (decide (found = t)) as [->|Hne].
    + rewrite bool_decide_eq_false_2 by (intros Hn; by apply Hn).
      destruct (migrations w); [|done].
      destruct (py_in t (getattr_triggers w m)); simpl;
        by destruct (py_in t (original_attrs_get _ m)).
    + by rewrite bool_decide_eq_true_2 by congruence.
  - rewrite (bool_decide_eq_false_2 (is_Some None)) by (by intros [??]).
    simpl negb. rewrite orb_true_l.
    destruct (decide (get_pgid t m ∈ pg_function_names w)) as [Hin|Hin].
    + by rewrite bool_decide_eq_true_2 by done.
    + rewrite bool_decide_eq_false_2 by done.
      destruct (migrations w); [|done].
      destruct (py_in t (getattr_triggers w m)); simpl;
        by destruct (py_in t (original_attrs_get _ m)).
Qed.

Lemma delitem_eq key w :
  __delitem__ key w =
    if decide (":"%char ∈ chars key) then
      match dict_get key (data w) with
      | Some (m, t) => mirror_delete m t (set_data (dict_del key) w)
      | None => (Raise NotFound, w)
      end
    else (Raise MalformedURI, w).
Proof.
  unfold __delitem__. unfold mbind at 1. unfold M_bind at 1.
  rewrite getitem_eq. case_decide; [|done].
  destruct (dict_get key (data w)) as [[m t]|]; [|done].
  unfold mirror_delete, list_remove, set_data.
  unfold when, mbind, M_bind, gets, modify, mret, M_ret, raise. simpl.
  destruct (migrations w); simpl; [|done].
  destruct (meta_triggers w !! m) as [live|]; simpl; [|done].
  destruct (py_in t (deref (heap w) live)); simpl; [|done].
  destruct (original_attrs w !! m) as [orig|]; simpl; [|done].
  destruct (py_in t (deref _ orig)) eqn:Hp; simpl; by rewrite ?Hp.
Qed.
(** *** The derived views *)


Lemma by_db_table_None w p :
  by_db_table w !! p = None ↔
  ∀ k m t, (k, (m, t)) ∈ data w → (db_table m, name t) ≠ p.
Proof.
  destruct w as [d mt oa h mg]. unfold by_db_table. simpl.
  induction d as [|[k [m t]] d IH] using rev_ind.
  - simpl. rewrite lookup_empty. split; [|done].
    intros _ k m t Hin. by apply elem_of_nil in Hin.
  - rewrite foldl_app. simpl. rewrite lookup_insert_None, IH. split.
    + intros [Hd Hne] k' m' t' [Hin|Hin]%elem_of_app; [eauto|].
      apply list_elem_of_singleton in Hin. by simplify_eq.
    + intros Hall. split.
      * intros k' m' t' Hin. apply (Hall k'), elem_of_app. by left.
      * apply (Hall k), elem_of_app. right. by apply list_elem_of_singleton.
Qed.

Lemma by_db_table_Some w p found :
  by_db_table w !! p = Some found →
  ∃ k m, (k, (m, found)) ∈ data w ∧ (db_table m, name found) = p.
Proof.
  destruct w as [d mt oa h mg]. unfold by_db_table. simpl.
  induction d as [|[k [m t]] d IH] using rev_ind.
  - simpl. by rewrite lookup_empty.
  - rewrite foldl_app. simpl. rewrite lookup_insert_Some.
    intros [[Hp ->]|[Hne Hl]].
    + exists k, m. split; [|done]. apply elem_of_app. right.
      by apply list_elem_of_singleton.
    + destruct (IH Hl) as (k' & m' & Hin & Hp). exists k', m'.
      split; [|done]. apply elem_of_app. by left.
Qed.

(** Where names are unique per table, the view finds the trigger of any
    stored entry with the pair. *)
Lemma by_db_table_stored w k m t :
  name_unique w → (k, (m, t)) ∈ data w →
  by_db_table w !! (db_table m, name t) = Some t.
Proof.
  intros Hu Hin.
  destruct (by_db_table w !! (db_table m, name t)) as [found|] eqn:Hf.
  - apply by_db_table_Some in Hf as (k' & m' & Hin' & Hp).
    simplify_eq. f_equal. by eapply (Hu k' m' found k m t).
  - rewrite by_db_table_None in Hf. by destruct (Hf k m t Hin).
Qed.

Lemma elem_of_pg_function_names w x :
  x ∈ pg_function_names w ↔
  ∃ k m t, (k, (m, t)) ∈ data w ∧ get_pgid t m = x.
Proof.
  unfold pg_function_names. rewrite elem_of_list_to_set, list_elem_of_fmap.
  split.
  - intros ([k [m t]] & -> & Hin). by exists k, m, t.
  - intros (k & m & t & Hin & <-). by exists (k, (m, t)).
Qed.

(** *** The mirror leaves the catalog and the flag alone *)

Lemma mirror_set_data m t w : data (mirror_set m t w) = data w.
Proof.
  unfold mirror_set, mirror_original, mirror_live.
  destruct (migrations w); [|done].
  destruct (py_in t (getattr_triggers w m)); simpl;
    by destruct (py_in t (original_attrs_get _ m)).
Qed.

Lemma mirror_set_migrations m t w :
  migrations (mirror_set m t w) = migrations w.
Proof.
  unfold mirror_set, mirror_original, mirror_live.
  destruct (migrations w) eqn:Hm; [|done].
  destruct (py_in t (getattr_triggers w m)); simpl;
    by destruct (py_in t (original_attrs_get _ m)).
Qed.

Lemma mirror_delete_data m t w :
  data (mirror_delete m t w).2 = data w.
Proof.
  unfold mirror_delete. destruct (migrations w); [|done].
  destruct (meta_triggers w !! m) as [live|]; [|done].
  destruct (py_in t (deref (heap w) live)); [|done].
  destruct (original_attrs w !! m) as [orig|]; [|done].
  by destruct (py_in t (deref _ orig)).
Qed.

(** *** What a call can do to the catalog *)

Lemma set_outcome uri m t w :
  (∃ e, set uri m t w = (Raise e, w)) ∨
  (set uri m t w = (Ok (), set_data (dict_set uri (m, t)) (mirror_set m t w))
   ∧ uri = format_uri (label m) (name t)
   ∧ (by_db_table w !! (db_table m, name t) = Some t
      ∨ (by_db_table w !! (db_table m, name t) = None
         ∧ get_pgid t m ∉ pg_function_names w))).
Proof.
  unfold set. rewrite setitem_eq.
  case_decide as Hk; [|left; eauto].
  destruct (by_db_table w !! (db_table m, name t)) as [found|].
  - destruct (decide (found = t)) as [->|]; [right; eauto | left; eauto].
  - case_decide; [left; eauto | right; eauto].
Qed.

Lemma delete_outcome uri w :
  (∃ e, delete uri w = (Raise e, w)) ∨
  (∃ m t, dict_get uri (data w) = Some (m, t)
          ∧ ":"%char ∈ chars uri
          ∧ delete uri w = mirror_delete m t (set_data (dict_del uri) w)).
Proof.
  unfold delete. rewrite delitem_eq. case_decide; [|left; eauto].
  destruct (dict_get uri (data w)) as [[m t]|]; [right | left]; eauto.
Qed.

Lemma exec_data c w :
  data (exec c w).2 = data w
  ∨ (∃ uri m t, c = CallSet uri m t
       ∧ (exec c w).1 = Ok ()
       ∧ data (exec c w).2 = dict_set uri (m, t) (data w)
       ∧ uri = format_uri (label m) (name t)
       ∧ (by_db_table w !! (db_table m, name t) = Some t
          ∨ (by_db_table w !! (db_table m, name t) = None
             ∧ get_pgid t m ∉ pg_function_names w)))
  ∨ (∃ uri, c = CallDelete uri ∧ data (exec c w).2 = dict_del uri (data w)).
Proof.
  destruct c as [uri m t|uri]; simpl.
  - destruct (set_outcome uri m t w) as [[e He]|(He & Hk & Hc)]; rewrite He.
    + by left.
    + right; left. exists uri, m, t. simpl. by rewrite mirror_set_data.
  - destruct (delete_outcome uri w) as [[e He]|(m & t & Hg & _ & He)];
      rewrite He; [by left|].
    right; right. exists uri. by rewrite mirror_delete_data.
Qed.

(** *** Invariants *)

Lemma dict_set_name_unique w uri m t :
  name_unique w →
  by_db_table w !! (db_table m, name t) = Some t
  ∨ by_db_table w !! (db_table m, name t) = None →
  name_unique (set_data (dict_set uri (m, t)) w).
Proof.
  intros Hu Hf k1 m1 t1 k2 m2 t2 Hin1 Hin2 Htab Hname. simpl in *.
  assert (∀ k' m' t', (k', (m', t')) ∈ data w →
            db_table m' = db_table m → name t' = name t → t' = t) as Hold.
  { intros k' m' t' Hin Ht Hn. destruct Hf as [Hf|Hf].
    - apply by_db_table_Some in Hf as (k0 & m0 & Hin0 & Hp).
      assert (db_table m0 = db_table m) by congruence.
      eapply (Hu k' m' t' k0 m0 t); eauto; congruence.
    - rewrite by_db_table_None in Hf. destruct (Hf k' m' t' Hin). congruence. }
  apply elem_dict_set in Hin1 as [?|Hin1], Hin2 as [?|Hin2]; simplify_eq.
  - done.
  - symmetry. eapply Hold; eauto.
  - eapply Hold; eauto.
  - by eapply (Hu k1 m1 t1 k2 m2 t2).
Qed.

Lemma exec_catalog_ok c w : catalog_ok w → catalog_ok (exec c w).2.
Proof.
  intros (Hnd & Hkc & Hu). unfold catalog_ok, keys_nodup, key_consistent,
    name_unique.
  destruct (exec_data c w) as [Hd|[(uri & m & t & -> & _ & Hd & Hk & Hc)|(uri & -> & Hd)]];
    rewrite Hd.
  - done.
  - split_and!.
    + by apply dict_set_nodup.
    + intros k' m' t' [?|Hin]%elem_dict_set; [by simplify_eq | eauto].
    + apply (dict_set_name_unique w uri m t Hu).
      destruct Hc as [Hc|[Hc _]]; [by left | by right].
  - split_and!.
    + by apply dict_del_nodup.
    + intros k' m' t' Hin%elem_dict_del. eauto.
    + intros k1 m1 t1 k2 m2 t2 Hin1%elem_dict_del Hin2%elem_dict_del.
      by eapply Hu.
Qed.

Lemma reachable_catalog_ok w : reachable w → catalog_ok w.
Proof.
  induction 1 as [w Hd|w c _ IH|w w' _ IH Hd].
  - unfold catalog_ok, keys_nodup, key_consistent, name_unique.
    rewrite Hd. split_and!.
    + apply NoDup_nil_2.
    + by intros k m t ?%elem_of_nil.
    + by intros k1 m1 t1 k2 m2 t2 ?%elem_of_nil.
  - by apply exec_catalog_ok.
  - unfold catalog_ok, keys_nodup, key_consistent, name_unique
      in *. by rewrite Hd.
Qed.

(** Every stored URI holds a colon. *)
Lemma stored_key_colon w uri m t :
  key_consistent w → dict_get uri (data w) = Some (m, t) →
  ":"%char ∈ chars uri.
Proof.
  intros Hkc Hg%dict_get_elem. rewrite (Hkc _ _ _ Hg). apply format_uri_colon.
Qed.
(** *** List objects *)

Lemma elem_deref_valid (h : list (list Trigger)) l t :
  t ∈ deref h l → l < length h.
Proof.
  unfold deref. destruct (h !! l) as [x|] eqn:Hl; simpl.
  - intros _. by eapply lookup_lt_Some.
  - by intros ?%elem_of_nil.
Qed.

Lemma deref_app_l (h h' : list (list Trigger)) l :
  l < length h → deref (h ++ h') l = deref h l.
Proof. intros Hl. unfold deref. by rewrite lookup_app_l. Qed.

Lemma deref_alloc (h : list (list Trigger)) x :
  deref (h ++ [x]) (length h) = x.
Proof.
  unfold deref. rewrite lookup_app_r by lia.
  by replace (length h - length h) with 0 by lia.
Qed.

Lemma deref_insert_eq (h : list (list Trigger)) l x :
  l < length h → deref (<[l := x]> h) l = x.
Proof. intros Hl. unfold deref. by rewrite list_lookup_insert_eq. Qed.

Lemma deref_insert_ne (h : list (list Trigger)) l l' x :
  l ≠ l' → deref (<[l := x]> h) l' = deref h l'.
Proof. intros Hl. unfold deref. by rewrite list_lookup_insert_ne. Qed.

(** *** The mirror of [set] *)

Lemma getattr_triggers_elem w m t :
  t ∈ getattr_triggers w m →
  ∃ l, meta_triggers w !! m = Some l ∧ t ∈ deref (heap w) l.
Proof.
  unfold getattr_triggers. destruct (meta_triggers w !! m) as [l|]; [eauto|].
  by intros ?%elem_of_nil.
Qed.

Lemma original_attrs_get_elem w m t :
  t ∈ original_attrs_get w m →
  ∃ l, original_attrs w !! m = Some l ∧ t ∈ deref (heap w) l.
Proof.
  unfold original_attrs_get. destruct (original_attrs w !! m) as [l|]; [eauto|].
  by intros ?%elem_of_nil.
Qed.

(** The live collection after the first guarded append. *)
Lemma mirror_live_triggers m t w :
  getattr_triggers (mirror_live m t w) m
  = if py_in t (getattr_triggers w m) then getattr_triggers w m
    else getattr_triggers w m ++ [t].
Proof.
  unfold mirror_live. destruct (py_in t (getattr_triggers w m)); [done|].
  unfold getattr_triggers at 1, assign_triggers. simpl.
  by rewrite lookup_insert_eq, deref_alloc.
Qed.

(** The second append allocates a list and leaves the live one alone. *)
Lemma mirror_original_triggers m t w :
  t ∈ getattr_triggers w m →
  getattr_triggers (mirror_original m t w) m = getattr_triggers w m.
Proof.
  intros Hin. unfold mirror_original.
  destruct (py_in t (original_attrs_get w m)); [done|].
  apply getattr_triggers_elem in Hin as (l & Hl & Hin).
  unfold getattr_triggers, assign_original. simpl. rewrite Hl.
  apply deref_app_l. by eapply elem_deref_valid.
Qed.

Lemma mirror_original_original m t w :
  original_attrs_get (mirror_original m t w) m
  = if py_in t (original_attrs_get w m) then original_attrs_get w m
    else original_attrs_get w m ++ [t].
Proof.
  unfold mirror_original. destruct (py_in t (original_attrs_get w m)); [done|].
  unfold original_attrs_get at 1, assign_original. simpl.
  by rewrite lookup_insert_eq, deref_alloc.
Qed.

(** What the original-declaration collection reads as after the first
    append: the same list, unless its name pointed outside the heap. *)
Lemma mirror_live_original m t w :
  original_attrs_get (mirror_live m t w) m = original_attrs_get w m
  ∨ (original_attrs_get w m = []
     ∧ (t ∉ getattr_triggers w m)
     ∧ original_attrs_get (mirror_live m t w) m = getattr_triggers w m ++ [t]).
Proof.
  unfold mirror_live. destruct (py_in t (getattr_triggers w m)) eqn:Hp; [by left|].
  apply py_in_false in Hp.
  unfold original_attrs_get, assign_triggers. simpl.
  destruct (original_attrs w !! m) as [o|]; [|by left].
  destruct (decide (o < length (heap w))) as [Hlt|Hge].
  - left. by apply deref_app_l.
  - destruct (decide (o = length (heap w))) as [->|Hne].
    + right. rewrite deref_alloc. split_and!; [|done..].
      unfold deref. by rewrite lookup_ge_None_2.
    + left. unfold deref. rewrite !lookup_ge_None_2; [done | lia |].
      rewrite length_app. simpl. lia.
Qed.

Lemma count_guarded_append (t : Trigger) l :
  count t (if py_in t l then l else l ++ [t]) = Nat.max 1 (count t l).
Proof.
  destruct (py_in t l) eqn:Hp.
  - apply py_in_true, count_pos in Hp. lia.
  - apply py_in_false, count_zero in Hp.
    rewrite count_app, count_single, Hp. done.
Qed.

Lemma mirror_set_triggers_count m t w :
  migrations w = true →
  count t (getattr_triggers (mirror_set m t w) m)
  = Nat.max 1 (count t (getattr_triggers w m)).
Proof.
  intros Hm. unfold mirror_set. rewrite Hm.
  rewrite mirror_original_triggers.
  - by rewrite mirror_live_triggers, count_guarded_append.
  - apply count_pos. rewrite mirror_live_triggers, count_guarded_append. lia.
Qed.

Lemma mirror_set_original_count m t w :
  migrations w = true →
  count t (original_attrs_get (mirror_set m t w) m)
  = Nat.max 1 (count t (original_attrs_get w m)).
Proof.
  intros Hm. unfold mirror_set. rewrite Hm.
  rewrite mirror_original_original, count_guarded_append.
  destruct (mirror_live_original m t w) as [->|(Hnil & Hnin & ->)]; [done|].
  rewrite Hnil, count_app, count_single. simpl.
  apply count_zero in Hnin. rewrite Hnin. done.
Qed.

(** After the mirror both collections exist and hold the trigger. *)
Lemma mirror_set_established m t w :
  migrations w = true →
  t ∈ getattr_triggers (mirror_set m t w) m
  ∧ t ∈ original_attrs_get (mirror_set m t w) m.
Proof.
  intros Hm. split; apply count_pos.
  - rewrite mirror_set_triggers_count by done. lia.
  - rewrite mirror_set_original_count by done. lia.
Qed.

(** When both collections hold the trigger the mirror does nothing. *)
Lemma mirror_set_id m t w :
  (migrations w = true →
   t ∈ getattr_triggers w m ∧ t ∈ original_attrs_get w m) →
  mirror_set m t w = w.
Proof.
  intros Hin. unfold mirror_set, mirror_original, mirror_live.
  destruct (migrations w); [|done]. destruct Hin as [Hl Ho]; [done|].
  apply py_in_true in Hl as Hl', Ho as Ho'. by rewrite Hl', Ho'.
Qed.

Lemma set_data_id w f : f (data w) = data w → set_data f w = w.
Proof. destruct w. unfold set_data. simpl. by intros ->. Qed.

(** *** Malformed URIs *)

(** C9: for a uri without a colon, in every world, looking the uri up (by
    [_registry[uri]] or by [registered(uri)]) and [delete(uri)] raise the
    ValueError of [__getitem__] (MalformedURI) and leave the world, the
    catalog store included, as it was. *)
Theorem malformed_uri_get_delete uri w :
  ":"%char ∉ chars uri →
  __getitem__ uri w = (Raise MalformedURI, w)
  ∧ registered [uri] w = (Raise MalformedURI, w)
  ∧ delete uri w = (Raise MalformedURI, w).
Proof.
  intros Hn.
  assert (__getitem__ uri w = (Raise MalformedURI, w)) as Hget
    by (rewrite getitem_eq; by rewrite decide_False).
  split_and!; [done | |].
  - unfold registered, lookup_all, mbind, M_bind. by rewrite Hget.
  - unfold delete. rewrite delitem_eq. by rewrite decide_False.
Qed.

(** C8 (amended): for a uri without a colon, [set] fails on the assertion
    that the uri is [label:name] (AssertionError, the internal contract
    violation), never with MalformedURI: [__setitem__] does not parse the
    uri.  The world is left as it was. *)
Theorem set_uri_without_colon uri m t w :
  ":"%char ∉ chars uri →
  set uri m t w = (Raise AssertionError, w).
Proof.
  intros Hn. unfold set. rewrite setitem_eq. rewrite decide_False; [done|].
  intros <-. apply Hn, format_uri_colon.
Qed.

(** *** Uniqueness *)

(** C2: in every world the process can reach, if an entry is stored whose
    trigger has name [n] on table [tb], then [set] with a candidate that
    has the same name on the same table and is not equal to the stored
    trigger raises DuplicateName, and the world (the store, the metadata
    names and the list objects) is exactly as before. *)
Theorem duplicate_name_rejected w k0 m0 t0 uri m t :
  reachable w →
  (k0, (m0, t0)) ∈ data w →
  db_table m = db_table m0 → name t = name t0 → t ≠ t0 →
  uri = format_uri (label m) (name t) →
  set uri m t w = (Raise DuplicateName, w).
Proof.
  intros (_ & _ & Hu)%reachable_catalog_ok Hin Htab Hname Hne ->.
  unfold set. rewrite setitem_eq, decide_True by done.
  rewrite Htab, Hname, (by_db_table_stored w k0 m0 t0 Hu Hin).
  by rewrite decide_False.
Qed.

(** C3: when no stored entry has the candidate's (table, name) pair and
    some stored entry (necessarily of another pair) produces the
    candidate's function identifier, [set] raises DuplicateFunctionId and
    the world is as before, the stored entry with it; and the
    function-identifier check only runs in that case: when a stored entry
    has the candidate's pair, [set] never raises DuplicateFunctionId. *)
Theorem duplicate_function_id_rejected w k1 m1 t1 uri m t :
  (k1, (m1, t1)) ∈ data w →
  get_pgid t m = get_pgid t1 m1 →
  uri = format_uri (label m) (name t) →
  ((∀ k' m' t', (k', (m', t')) ∈ data w →
      (db_table m', name t') ≠ (db_table m, name t)) →
   (db_table m1, name t1) ≠ (db_table m, name t)
   ∧ set uri m t w = (Raise DuplicateFunctionId, w)
   ∧ (k1, (m1, t1)) ∈ data (set uri m t w).2)
  ∧ ((∃ k' m' t', (k', (m', t')) ∈ data w
        ∧ (db_table m', name t') = (db_table m, name t)) →
     (set uri m t w).1 ≠ Raise DuplicateFunctionId).
Proof.
  intros Hin Hpg ->. unfold set. rewrite setitem_eq, decide_True by done.
  split.
  - intros Hfresh. split; [by eapply Hfresh|].
    apply by_db_table_None in Hfresh. rewrite Hfresh.
    rewrite decide_True; [done|].
    apply elem_of_pg_function_names. by exists k1, m1, t1.
  - intros (k' & m' & t' & Hin' & Hp).
    destruct (by_db_table w !! (db_table m, name t)) as [found|] eqn:Hf.
    + by case_decide.
    + rewrite by_db_table_None in Hf. by destruct (Hf k' m' t' Hin').
Qed.
(** *** The mirror of [delete] *)

Lemma mirror_delete_ok m t w l o :
  migrations w = true →
  meta_triggers w !! m = Some l → t ∈ deref (heap w) l →
  original_attrs w !! m = Some o →
  ∃ w', mirror_delete m t w = (Ok (), w')
        ∧ data w' = data w
        ∧ (count t (deref (heap w) l) = 1 → t ∉ getattr_triggers w' m).
Proof.
  intros Hm Hl Hin Ho. unfold mirror_delete. rewrite Hm, Hl, Ho.
  apply py_in_true in Hin as Hp. rewrite Hp.
  pose proof (elem_deref_valid _ _ _ Hin) as Hvalid.
  pose proof (count_remove_first t _ Hin) as Hcount.
  assert (count t (deref (heap w) l) = 1 →
          t ∉ deref (heap (heap_remove l t w)) l) as Hgone.
  { intros H1. simpl. rewrite deref_insert_eq by done. apply count_zero. lia. }
  destruct (py_in t (deref (heap (heap_remove l t w)) o)) eqn:Hpo.
  - eexists. split_and!; [done..|]. intros H1.
    unfold getattr_triggers. simpl. rewrite Hl.
    destruct (decide (o = l)) as [->|Hne].
    + apply py_in_true in Hpo. by destruct (Hgone H1).
    + rewrite deref_insert_ne by done. by apply Hgone.
  - eexists. split_and!; [done..|]. intros H1.
    unfold getattr_triggers. simpl. rewrite Hl. by apply Hgone.
Qed.

Lemma filter_key_absent {V} (k : string) (d : list (string * V)) :
  k ∉ dict_keys d → filter (λ e, e.1 = k) d = [].
Proof.
  unfold dict_keys. induction d as [|[k' v'] d IH]; simpl; [done|].
  rewrite not_elem_of_cons. intros [Hne Hd].
  rewrite filter_cons_False by (simpl; congruence). auto.
Qed.

Lemma filter_key_nodup {V} (k : string) (v : V) (d : list (string * V)) :
  NoDup (dict_keys d) → dict_get k d = Some v →
  filter (λ e, e.1 = k) d = [(k, v)].
Proof.
  unfold dict_keys. induction d as [|[k' v'] d IH]; simpl; [done|].
  rewrite NoDup_cons. intros [Hk Hd].
  destruct (decide (k' = k)) as [->|Hne].
  - intros [= ->]. rewrite filter_cons_True by done. f_equal.
    by apply filter_key_absent.
  - intros Hg. rewrite filter_cons_False by done. auto.
Qed.

(** *** List names stay inside the heap *)

Lemma assign_triggers_closed m l w :
  heap_closed w → heap_closed (assign_triggers m l w).
Proof.
  intros [Hl Ho]. split; simpl; intros m' l'; rewrite length_app; simpl.
  - rewrite lookup_insert_Some. intros [[_ <-]|[_ Hm]]; [lia|].
    apply Hl in Hm. lia.
  - intros Hm. apply Ho in Hm. lia.
Qed.

Lemma assign_original_closed m l w :
  heap_closed w → heap_closed (assign_original m l w).
Proof.
  intros [Hl Ho]. split; simpl; intros m' l'; rewrite length_app; simpl.
  - intros Hm. apply Hl in Hm. lia.
  - rewrite lookup_insert_Some. intros [[_ <-]|[_ Hm]]; [lia|].
    apply Ho in Hm. lia.
Qed.

Lemma heap_remove_closed l t w :
  heap_closed w → heap_closed (heap_remove l t w).
Proof.
  intros [Hl Ho]. split; simpl; intros m' l'; rewrite length_insert; eauto.
Qed.

Lemma mirror_set_closed m t w : heap_closed w → heap_closed (mirror_set m t w).
Proof.
  intros Hc. unfold mirror_set, mirror_original, mirror_live.
  destruct (migrations w); [|done].
  destruct (py_in t (getattr_triggers w m)).
  - destruct (py_in t (original_attrs_get w m)); [done|].
    by apply assign_original_closed.
  - destruct (py_in t (original_attrs_get _ m)).
    + by apply assign_triggers_closed.
    + by apply assign_original_closed, assign_triggers_closed.
Qed.

Lemma mirror_delete_closed m t w :
  heap_closed w → heap_closed (mirror_delete m t w).2.
Proof.
  intros Hc. unfold mirror_delete. destruct (migrations w); [|done].
  destruct (meta_triggers w !! m) as [live|]; [|done].
  destruct (py_in t (deref (heap w) live)); [|done].
  destruct (original_attrs w !! m) as [orig|]; simpl.
  - destruct (py_in t (deref _ orig)); simpl;
      auto using heap_remove_closed.
  - by apply heap_remove_closed.
Qed.

(** Every call keeps the names of list objects inside the heap. *)
Lemma exec_heap_closed c w : heap_closed w → heap_closed (exec c w).2.
Proof.
  intros Hc. destruct c as [uri m t|uri]; simpl.
  - destruct (set_outcome uri m t w) as [[e He]|(He & _)]; rewrite He; [done|].
    by apply (mirror_set_closed m t w).
  - destruct (delete_outcome uri w) as [[e He]|(m & t & _ & _ & He)];
      rewrite He; [done|].
    by apply (mirror_delete_closed m t (set_data (dict_del uri) w)).
Qed.

(** *** Registration and removal *)

(** C4: when [set(uri, model, trigger)] succeeds in a reachable world, the
    same call made again succeeds and changes nothing; the catalog holds
    exactly one entry for the uri, the pair given; and no copy of the
    trigger is added to a live or original-declaration collection that
    already held it: a collection with at most one copy before the calls
    has at most one after them. *)
Theorem set_twice w uri m t w1 :
  reachable w →
  set uri m t w = (Ok (), w1) →
  set uri m t w1 = (Ok (), w1)
  ∧ filter (λ e, e.1 = uri) (data w1) = [(uri, (m, t))]
  ∧ (count t (getattr_triggers w m) ≤ 1 →
     count t (getattr_triggers w1 m) ≤ 1)
  ∧ (count t (original_attrs_get w m) ≤ 1 →
     count t (original_attrs_get w1 m) ≤ 1).
Proof.
  intros Hr Hset.
  assert (catalog_ok w1) as (Hnd & Hkc & Hu).
  { apply reachable_catalog_ok.
    change w1 with (Ok (), w1).2. rewrite <- Hset.
    apply (reachable_call w (CallSet uri m t) Hr). }
  destruct (set_outcome uri m t w) as [[e He]|(He & Hk & _)]; [congruence|].
  assert (w1 = set_data (dict_set uri (m, t)) (mirror_set m t w)) as Hw1
    by congruence.
  assert (dict_get uri (data w1) = Some (m, t)) as Hget
    by (rewrite Hw1; apply dict_get_set_eq).
  split_and!.
  - unfold set. rewrite setitem_eq, decide_True by done.
    rewrite (by_db_table_stored w1 uri m t Hu (dict_get_elem _ _ _ Hget)).
    rewrite decide_True by done. f_equal.
    rewrite mirror_set_id.
    + by apply set_data_id, dict_set_id.
    + rewrite Hw1. intros Hm. simpl in Hm. rewrite mirror_set_migrations in Hm.
      apply (mirror_set_established m t w Hm).
  - by apply filter_key_nodup.
  - intros Hle. rewrite Hw1.
    change (count t (getattr_triggers (mirror_set m t w) m) ≤ 1).
    destruct (migrations w) eqn:Hm.
    + rewrite mirror_set_triggers_count by done. lia.
    + unfold mirror_set. by rewrite Hm.
  - intros Hle. rewrite Hw1.
    change (count t (original_attrs_get (mirror_set m t w) m) ≤ 1).
    destruct (migrations w) eqn:Hm.
    + rewrite mirror_set_original_count by done. lia.
    + unfold mirror_set. by rewrite Hm.
Qed.

Lemma delete_after_set w uri m t w1 :
  set uri m t w = (Ok (), w1) →
  ∃ w2, delete uri w1 = (Ok (), w2)
        ∧ data w2 = dict_del uri (dict_set uri (m, t) (data w))
        ∧ (migrations w = true →
           count t (getattr_triggers w1 m) = 1 →
           t ∉ getattr_triggers w2 m).
Proof.
  intros Hset.
  destruct (set_outcome uri m t w) as [[e He]|(He & Hk & _)]; [congruence|].
  assert (w1 = set_data (dict_set uri (m, t)) (mirror_set m t w)) as ->
    by congruence.
  unfold delete. rewrite delitem_eq.
  rewrite decide_True by (rewrite Hk; apply format_uri_colon).
  simpl. rewrite dict_get_set_eq.
  destruct (migrations w) eqn:Hm.
  - destruct (mirror_set_established m t w Hm) as [Hl Ho].
    apply getattr_triggers_elem in Hl as Hl'. destruct Hl' as (l & Hl' & Hin).
    apply original_attrs_get_elem in Ho as (o & Ho & _).
    destruct (mirror_delete_ok m t
                (set_data (dict_del uri)
                   (set_data (dict_set uri (m, t)) (mirror_set m t w))) l o)
      as (w2 & Hdel & Hd & Hgone); [by rewrite <- Hm, <- (mirror_set_migrations m t w) | done..|].
    exists w2. split_and!; [done | |].
    + rewrite Hd. simpl. by rewrite mirror_set_data.
    + intros _ H1. apply Hgone. simpl.
      unfold getattr_triggers in H1. simpl in H1. by rewrite Hl' in H1.
  - eexists. unfold mirror_delete. simpl. rewrite mirror_set_migrations, Hm.
    split_and!; [done | | done]. simpl. by rewrite mirror_set_data.
Qed.

Lemma fresh_key_gone {V} (k : string) (v : V) (d : list (string * V)) :
  dict_get k d = None → dict_get k (dict_del k (dict_set k v d)) = None.
Proof.
  induction d as [|[k' v'] d IH]; simpl.
  - by rewrite decide_True.
  - destruct (decide (k' = k)) as [->|Hne]; [done|]. intros Hg. simpl.
    rewrite !decide_False by done. simpl. rewrite decide_False by done. auto.
Qed.

(** C5: for a uri that is not in the catalog, after a successful
    [set(uri, model, trigger)] looking the uri up returns the pair
    [(model, trigger)]; [delete(uri)] then succeeds, and after it both a
    lookup and a second [delete] raise the KeyError of [__getitem__]
    (NotFound). *)
Theorem set_get_delete_round_trip w uri m t w1 :
  dict_get uri (data w) = None →
  set uri m t w = (Ok (), w1) →
  __getitem__ uri w1 = (Ok (m, t), w1)
  ∧ registered [uri] w1 = (Ok [(m, t)], w1)
  ∧ ∃ w2, delete uri w1 = (Ok (), w2)
          ∧ __getitem__ uri w2 = (Raise NotFound, w2)
          ∧ delete uri w2 = (Raise NotFound, w2).
Proof.
  intros Hfresh Hset.
  destruct (delete_after_set w uri m t w1 Hset) as (w2 & Hdel & Hd & _).
  destruct (set_outcome uri m t w) as [[e He]|(He & Hk & _)]; [congruence|].
  assert (w1 = set_data (dict_set uri (m, t)) (mirror_set m t w)) as Hw1
    by congruence.
  assert (":"%char ∈ chars uri) as Hcolon
    by (rewrite Hk; apply format_uri_colon).
  assert (__getitem__ uri w1 = (Ok (m, t), w1)) as Hget.
  { rewrite getitem_eq, decide_True by done.
    rewrite Hw1 at 1. simpl. by rewrite dict_get_set_eq. }
  split_and!; [done | |].
  - unfold registered, lookup_all, mbind, M_bind. by rewrite Hget.
  - exists w2. split; [done|].
    assert (dict_get uri (data w2) = None) as Hgone
      by (rewrite Hd; by apply fresh_key_gone).
    split.
    + rewrite getitem_eq, decide_True by done. by rewrite Hgone.
    + unfold delete. rewrite delitem_eq, decide_True by done. by rewrite Hgone.
Qed.

(** C7 (amended): for every stored entry whose trigger is in its model's
    live collection and whose model has an original-declaration collection,
    [delete(uri)] succeeds and the entry is gone, whether or not the trigger
    is in the original-declaration collection; when it is absent from it,
    that collection is left as it is. *)
Theorem delete_absent_from_original w uri m t l o :
  reachable w →
  dict_get uri (data w) = Some (m, t) →
  meta_triggers w !! m = Some l → t ∈ deref (heap w) l →
  original_attrs w !! m = Some o →
  ∃ w', delete uri w = (Ok (), w')
        ∧ dict_get uri (data w') = None
        ∧ (t ∉ deref (heap w) o →
           original_attrs_get w' m = original_attrs_get w m).
Proof.
  intros (Hnd & Hkc & _)%reachable_catalog_ok Hg Hl Hin Ho.
  unfold delete. rewrite delitem_eq.
  rewrite decide_True by (by eapply stored_key_colon).
  rewrite Hg. unfold mirror_delete. simpl.
  pose proof (dict_get_del_eq uri (data w) Hnd) as Hgone.
  destruct (migrations w); [|by eexists].
  rewrite Hl, Ho. apply py_in_true in Hin as Hp. rewrite Hp.
  simpl. destruct (py_in t (deref (<[l:=_]> (heap w)) o)) eqn:Hq.
  - eexists. split_and!; [done..|]. intros Hnin.
    apply py_in_true in Hq.
    assert (o ≠ l) as Hol by (intros ->; done).
    rewrite deref_insert_ne in Hq by done. done.
  - eexists. split_and!; [done..|]. intros Hnin.
    assert (o ≠ l) as Hol by (intros ->; done).
    unfold original_attrs_get. simpl. rewrite Ho. by apply deref_insert_ne.
Qed.

(** C10: [delete] takes the entry out of the store before it mirrors.  In
    a reachable world with an entry stored under [uri], whenever
    [delete(uri)] raises, the entry is already gone from the store, and the
    metadata is not updated (AttributeError: no live collection;
    ValueError: the trigger is not in the live collection) or half
    updated (KeyError: the trigger left the live collection and there is no
    original-declaration collection).  With synchronization enabled and
    the trigger absent from the live collection the call does raise. *)
Theorem delete_not_atomic w uri m t :
  reachable w →
  dict_get uri (data w) = Some (m, t) →
  (∀ e w', delete uri w = (Raise e, w') →
     data w' = dict_del uri (data w)
     ∧ dict_get uri (data w') = None
     ∧ meta_triggers w' = meta_triggers w
     ∧ original_attrs w' = original_attrs w
     ∧ ((e = AttributeError ∧ meta_triggers w !! m = None
         ∧ heap w' = heap w)
        ∨ (e = ValueError_remove ∧ (t ∉ getattr_triggers w m)
           ∧ heap w' = heap w)
        ∨ (e = KeyError_original_attrs ∧ original_attrs w !! m = None
           ∧ ∃ l, meta_triggers w !! m = Some l
                  ∧ heap w' = <[l := remove_first t (deref (heap w) l)]> (heap w))))
  ∧ (migrations w = true → t ∉ getattr_triggers w m →
     ∃ e, delete uri w = (Raise e, set_data (dict_del uri) w)).
Proof.
  intros (Hnd & Hkc & _)%reachable_catalog_ok Hg.
  unfold delete. rewrite delitem_eq.
  rewrite decide_True by (by eapply stored_key_colon).
  rewrite Hg. unfold mirror_delete, getattr_triggers. simpl.
  pose proof (dict_get_del_eq uri (data w) Hnd) as Hgone.
  destruct (migrations w); [|split; [by intros e w' [=] | done]].
  destruct (meta_triggers w !! m) as [l|] eqn:Hl.
  - destruct (py_in t (deref (heap w) l)) eqn:Hp.
    + split.
      * simpl. destruct (original_attrs w !! m) as [o|] eqn:Ho.
        { destruct (py_in t (deref _ o)); by intros e w' [=]. }
        intros e w' [= <- <-]. simpl. split_and!; [done..|].
        right; right. split_and!; [done..|]. by exists l.
      * intros _ Hnin. by apply py_in_true in Hp.
    + apply py_in_false in Hp. split.
      * intros e w' [= <- <-]. simpl. split_and!; [done..|].
        right; left. done.
      * intros _ _. by exists ValueError_remove.
  - split.
    + intros e w' [= <- <-]. simpl. split_and!; [done..|]. by left.
    + intros _ _. by exists AttributeError.
Qed.

(** *** Function identifiers over sequences of calls *)

Lemma dict_set_pgid_unique w uri m t :
  keys_nodup w → pgid_unique w →
  get_pgid t m ∉ pg_function_names w →
  pgid_unique (set_data (dict_set uri (m, t)) w).
Proof.
  intros Hnd Hpu Hnew k1 m1 t1 k2 m2 t2 Hin1 Hin2 Hne. simpl in *.
  assert (∀ k' m' t', (k', (m', t')) ∈ data w →
            get_pgid t' m' ≠ get_pgid t m) as Hold.
  { intros k' m' t' Hin Heq. apply Hnew, elem_of_pg_function_names.
    by exists k', m', t'. }
  apply (elem_dict_set_nodup _ _ _ _ _ Hnd) in Hin1 as [?|[_ Hin1]];
    apply (elem_dict_set_nodup _ _ _ _ _ Hnd) in Hin2 as [?|[_ Hin2]];
    simplify_eq.
  - intros Heq. by eapply Hold.
  - by eapply Hold.
  - by eapply Hpu.
Qed.

Lemma afresh_step c w w' :
  afresh w c = true → exec c w = (Ok (), w') →
  keys_nodup w ∧ pgid_unique w → keys_nodup w' ∧ pgid_unique w'.
Proof.
  intros Haf Hex [Hnd Hpu].
  assert (data w' = data (exec c w).2) as Hw' by (by rewrite Hex).
  unfold keys_nodup, pgid_unique. rewrite Hw'.
  destruct (exec_data c w)
    as [Hd|[(uri & m & t & -> & _ & Hd & Hk & Hc)|(uri & -> & Hd)]];
    rewrite Hd.
  - done.
  - split; [by apply dict_set_nodup|].
    simpl in Haf. apply orb_true_iff in Haf as [Hf|Hsame].
    + apply bool_decide_eq_true in Hf.
      destruct Hc as [Hc|[_ Hc]]; [congruence|].
      by apply (dict_set_pgid_unique w uri m t).
    + apply bool_decide_eq_true in Hsame. by rewrite dict_set_id.
  - split; [by apply dict_del_nodup|].
    intros k1 m1 t1 k2 m2 t2 Hin1%elem_dict_del Hin2%elem_dict_del.
    by apply Hpu.
Qed.

(** An equal trigger on a table where it is registered is stored under any
    uri of that table without a look at its function identifier; the
    identifier may then be one that another entry produces. *)
Lemma equal_trigger_registers w k1 m1 t uri m :
  reachable w → (k1, (m1, t)) ∈ data w → db_table m = db_table m1 →
  uri = format_uri (label m) (name t) →
  set uri m t w = (Ok (), set_data (dict_set uri (m, t)) (mirror_set m t w)).
Proof.
  intros (_ & _ & Hu)%reachable_catalog_ok Hin Htab ->.
  unfold set. rewrite setitem_eq, decide_True by done.
  rewrite Htab, (by_db_table_stored w k1 m1 t Hu Hin). by rewrite decide_True.
Qed.

Lemma equal_trigger_collision w k1 m1 t uri m k3 m3 t3 :
  reachable w → (k1, (m1, t)) ∈ data w → db_table m = db_table m1 →
  uri = format_uri (label m) (name t) →
  (k3, (m3, t3)) ∈ data w → k3 ≠ uri → get_pgid t3 m3 = get_pgid t m →
  (set uri m t w).1 = Ok () ∧ ¬ pgid_unique (set uri m t w).2.
Proof.
  intros Hr Hin Htab Huri Hin3 Hne Hpg.
  rewrite (equal_trigger_registers w k1 m1 t uri m) by done.
  split; [done|]. intros Hpu.
  apply (Hpu k3 m3 t3 uri m t); simpl; rewrite ?mirror_set_data.
  - by apply elem_dict_set_other.
  - apply elem_dict_set_stored.
  - congruence.
  - done.
Qed.

(** C1 (amended): after every sequence of successful [set] and [delete]
    calls that starts from the empty catalog and in which every [set]
    either registers a (table, name) pair that no stored entry has, or
    stores again the entry already held under its uri, no two distinct
    stored entries produce the same function identifier. *)
Theorem pgid_unique_when_registered_afresh calls w0 w :
  data w0 = [] →
  run_if afresh calls w0 = Some w →
  pgid_unique w.
Proof.
  intros Hd Hrun.
  assert (keys_nodup w0 ∧ pgid_unique w0) as Hinv.
  { unfold keys_nodup, pgid_unique. rewrite Hd. split; [apply NoDup_nil_2|].
    by intros k1 m1 t1 k2 m2 t2 ?%elem_of_nil. }
  clear Hd. revert w0 Hrun Hinv.
  induction calls as [|c calls IH]; simpl; intros w0 Hrun Hinv.
  - injection Hrun as <-. apply Hinv.
  - destruct (afresh w0 c) eqn:Haf; [|done].
    destruct (exec c w0) as [[[]|e] w'] eqn:Hex; [|done].
    apply (IH w' Hrun). by apply (afresh_step c w0 w').
Qed.
End registry_facts.

(** ** Further properties of the registry *)

Lemma append_inj_r (s a b : string) : s +:+ a = s +:+ b → a = b.
Proof. induction s as [|c s IH]; simpl; [done|]. intros [= Heq]. auto. Qed.

Lemma format_uri_inj_name l n n' : format_uri l n = format_uri l n' → n = n'.
Proof.
  unfold format_uri. intros Heq%append_inj_r. by apply append_inj_r in Heq.
Qed.

Lemma dict_set_fresh {V} (k : string) (v : V) (d : list (string * V)) :
  dict_get k d = None → dict_set k v d = d ++ [(k, v)].
Proof.
  induction d as [|[k' v'] d IH]; simpl; [done|].
  destruct (decide (k' = k)) as [->|Hne]; [done|]. intros Hg. by rewrite IH.
Qed.

Lemma dict_del_set_fresh {V} (k : string) (v : V) (d : list (string * V)) :
  dict_get k d = None → dict_del k (dict_set k v d) = d.
Proof.
  induction d as [|[k' v'] d IH]; simpl.
  - by rewrite decide_True.
  - destruct (decide (k' = k)) as [->|Hne]; [done|]. intros Hg. simpl.
    rewrite decide_False by done. by rewrite IH.
Qed.

Lemma dict_get_del_other {V} (k k' : string) (d : list (string * V)) :
  k ≠ k' → dict_get k' (dict_del k d) = dict_get k' d.
Proof.
  intros Hne. induction d as [|[k0 v0] d IH]; simpl; [done|].
  destruct (decide (k0 = k)) as [->|Hk]; simpl.
  - by rewrite decide_False.
  - by rewrite IH.
Qed.

Section registry_more.
Context {Model : Type} `{Countable Model}.
Context {Trigger : Type} `{EqDecision Trigger}.
Context `{!Collaborators Model Trigger}.

Abbreviation World := (World (Model := Model) (Trigger := Trigger)).

Implicit Types (w : World) (m : Model) (t : Trigger) (uri key : string).

(** *** Lookups and listings *)

Lemma getitem_stored key w v :
  ":"%char ∈ chars key → dict_get key (data w) = Some v →
  __getitem__ key w = (Ok v, w).
Proof. intros Hc Hg. rewrite getitem_eq, decide_True by done. by rewrite Hg. Qed.

Lemma getitem_world key w : (__getitem__ key w).2 = w.
Proof.
  rewrite getitem_eq. case_decide; [|done].
  by destruct (dict_get key (data w)).
Qed.

Lemma getitem_ok_inv key w v w' :
  __getitem__ key w = (Ok v, w') →
  ":"%char ∈ chars key ∧ dict_get key (data w) = Some v.
Proof.
  rewrite getitem_eq. case_decide; [|done].
  destruct (dict_get key (data w)); [|done]. by intros [= ->].
Qed.

Lemma lookup_all_cons uri uris w :
  lookup_all (uri :: uris) w =
    match __getitem__ uri w with
    | (Ok v, _) =>
        match lookup_all uris w with
        | (Ok vs, _) => (Ok (v :: vs), w)
        | (Raise e, _) => (Raise e, w)
        end
    | (Raise e, _) => (Raise e, w)
    end.
Proof.
  assert (∀ us, (lookup_all us w).2 = w) as Hworld.
  { induction us as [|u us IH]; [done|]. simpl. unfold mbind, M_bind.
    pose proof (getitem_world u w) as Hu.
    destruct (__getitem__ u w) as [[v|e] w1]; simpl in Hu; subst w1; [|done].
    destruct (lookup_all us w) as [[vs|e] w2]; simpl in IH; by subst w2. }
  simpl. unfold mbind, M_bind.
  pose proof (getitem_world uri w) as Hu.
  destruct (__getitem__ uri w) as [[v|e] w1]; simpl in Hu; subst w1; [|done].
  pose proof (Hworld uris) as Hus.
  destruct (lookup_all uris w) as [[vs|e] w2]; simpl in Hus; by subst w2.
Qed.

Lemma lookup_all_world uris w : (lookup_all uris w).2 = w.
Proof.
  destruct uris as [|uri uris]; [done|]. rewrite lookup_all_cons.
  destruct (__getitem__ uri w) as [[v|e] w1]; [|done].
  by destruct (lookup_all uris w) as [[vs|e] w2].
Qed.

Lemma lookup_all_ok uris vs w :
  lookup_all uris w = (Ok vs, w) ↔
  Forall2 (λ uri v, ":"%char ∈ chars uri ∧ dict_get uri (data w) = Some v)
          uris vs.
Proof.
  revert vs. induction uris as [|uri uris IH]; intros vs.
  - simpl. unfold mret, M_ret. split.
    + intros [= <-]. constructor.
    + by intros ->%Forall2_nil_inv_l.
  - rewrite lookup_all_cons. split.
    + destruct (__getitem__ uri w) as [[v|e] w1] eqn:Hu; [|done].
      destruct (lookup_all uris w) as [[vs'|e] w2] eqn:Hus; [|done].
      intros [= <-]. constructor; [by eapply getitem_ok_inv|].
      apply IH. pose proof (lookup_all_world uris w) as Hw.
      rewrite Hus in Hw. simpl in Hw. by subst w2.
    + intros (v & vs' & [Hc Hg] & Hall & ->)%Forall2_cons_inv_l.
      rewrite (getitem_stored uri w v Hc Hg).
      apply IH in Hall. by rewrite Hall.
Qed.

Lemma getitem_reachable w k m t :
  reachable w → (k, (m, t)) ∈ data w → __getitem__ k w = (Ok (m, t), w).
Proof.
  intros (Hnd & Hkc & _)%reachable_catalog_ok Hin.
  apply getitem_stored; [|by apply elem_get_nodup].
  rewrite (Hkc k m t Hin). apply format_uri_colon.
Qed.

Lemma lookup_all_keys w :
  reachable w → lookup_all (dict_keys (data w)) w = (Ok (data w).*2, w).
Proof.
  intros Hr. apply lookup_all_ok. unfold dict_keys.
  assert (∀ d, (∀ e, e ∈ d → e ∈ data w) →
               Forall2 (λ uri v, ":"%char ∈ chars uri
                                 ∧ dict_get uri (data w) = Some v)
                       d.*1 d.*2) as Hall.
  { induction d as [|[k [m t]] d IH]; intros Hsub; simpl; constructor.
    - eapply getitem_ok_inv, (getitem_reachable w k m t Hr). apply Hsub. left.
    - apply IH. intros e He. apply Hsub. by right. }
  by apply Hall.
Qed.

(** X1: in a reachable world every stored entry can be read back under its
    uri, by [_registry[uri]] and by [registered(uri)]: what [set] accepts
    as a key [__getitem__] never rejects as malformed. *)
Theorem stored_entry_retrievable w k m t :
  reachable w → (k, (m, t)) ∈ data w →
  __getitem__ k w = (Ok (m, t), w) ∧ registered [k] w = (Ok [(m, t)], w).
Proof.
  intros Hr Hin. pose proof (getitem_reachable w k m t Hr Hin) as Hget.
  split; [done|]. unfold registered. rewrite lookup_all_cons, Hget. done.
Qed.

(** X2: in a reachable world [registered()] without arguments returns every
    stored entry, in the order of registration, and leaves the world as it
    is. *)
Theorem registered_lists_all w :
  reachable w → registered [] w = (Ok (data w).*2, w).
Proof. intros Hr. unfold registered. by apply lookup_all_keys. Qed.

(** X3: [registered(uri, ...)] with at least one uri never changes the
    world, and returns a list exactly when every uri holds a colon and is
    stored; the list then gives the entries in the order asked, with
    repetitions. *)
Theorem registered_some uri uris vs w :
  (registered (uri :: uris) w).2 = w
  ∧ (registered (uri :: uris) w = (Ok vs, w) ↔
     Forall2 (λ u v, ":"%char ∈ chars u ∧ dict_get u (data w) = Some v)
             (uri :: uris) vs).
Proof.
  unfold registered. split; [apply lookup_all_world | apply lookup_all_ok].
Qed.

(** X4: [registered] stops at the first uri it cannot read: when the uris
    before [bad] are stored and [_registry[bad]] raises, the call raises
    that exception, whatever follows [bad]. *)
Theorem registered_first_failure good bad rest vs e w :
  Forall2 (λ u v, ":"%char ∈ chars u ∧ dict_get u (data w) = Some v) good vs →
  __getitem__ bad w = (Raise e, w) →
  registered (good ++ bad :: rest) w = (Raise e, w).
Proof.
  intros Hgood Hbad.
  assert (lookup_all (good ++ bad :: rest) w = (Raise e, w)) as Hall.
  { induction Hgood as [|u v good vs [Hc Hg] _ IH].
    - simpl app. rewrite lookup_all_cons, Hbad. done.
    - simpl app. rewrite lookup_all_cons, (getitem_stored u w v Hc Hg), IH.
      done. }
  unfold registered. by destruct good.
Qed.

(** X5: a uri that holds a colon (one or several, with either side empty)
    and is not stored is reported as not found, never as malformed:
    [_registry[uri]], [registered(uri)] and [delete(uri)] raise the KeyError
    of [__getitem__] and leave the world as it is. *)
Theorem absent_uri_not_found uri w :
  ":"%char ∈ chars uri → dict_get uri (data w) = None →
  __getitem__ uri w = (Raise NotFound, w)
  ∧ registered [uri] w = (Raise NotFound, w)
  ∧ delete uri w = (Raise NotFound, w).
Proof.
  intros Hc Hg.
  assert (__getitem__ uri w = (Raise NotFound, w)) as Hget
    by (rewrite getitem_eq, decide_True by done; by rewrite Hg).
  split_and!; [done | |].
  - unfold registered. by rewrite lookup_all_cons, Hget.
  - unfold delete. rewrite delitem_eq, decide_True by done. by rewrite Hg.
Qed.

(** *** What [set] raises, and when it succeeds *)

(** X6: [set] is all or nothing.  When it raises, the world is exactly as
    before, and the exception is one of three: AssertionError (the uri is
    not [label:name]), DuplicateName (a stored entry has the table and the
    name with another trigger) or DuplicateFunctionId (no stored entry has
    the table and the name, and one produces the function identifier). *)
Theorem set_raises_unchanged uri m t w e w' :
  set uri m t w = (Raise e, w') →
  w' = w
  ∧ ((e = AssertionError ∧ uri ≠ format_uri (label m) (name t))
     ∨ (e = DuplicateName
        ∧ ∃ k' m' t', (k', (m', t')) ∈ data w ∧ db_table m' = db_table m
                      ∧ name t' = name t ∧ t' ≠ t)
     ∨ (e = DuplicateFunctionId
        ∧ (∀ k' m' t', (k', (m', t')) ∈ data w →
             (db_table m', name t') ≠ (db_table m, name t))
        ∧ ∃ k' m' t', (k', (m', t')) ∈ data w
                      ∧ get_pgid t' m' = get_pgid t m)).
Proof.
  unfold set. rewrite setitem_eq. case_decide as Hk.
  - destruct (by_db_table w !! (db_table m, name t)) as [found|] eqn:Hf.
    + case_decide as Hfound; [done|]. intros [= <- <-]. split; [done|].
      right; left. split; [done|].
      apply by_db_table_Some in Hf as (k' & m' & Hin & [= Htab Hname]).
      by exists k', m', found.
    + case_decide as Hpg; [|done]. intros [= <- <-]. split; [done|].
      right; right. split; [done|]. split.
      * by apply by_db_table_None.
      * by apply elem_of_pg_function_names.
  - intros [= <- <-]. split; [done|]. left. split; [done|]. congruence.
Qed.

(** X7: a registration that collides with nothing succeeds: when the uri is
    [label:name], no stored entry has the table and the name, and no stored
    entry produces the function identifier, [set] returns, the entry is
    stored under the uri and can be read back. *)
Theorem set_succeeds_when_fresh uri m t w :
  uri = format_uri (label m) (name t) →
  (∀ k' m' t', (k', (m', t')) ∈ data w →
     (db_table m', name t') ≠ (db_table m, name t)) →
  (∀ k' m' t', (k', (m', t')) ∈ data w → get_pgid t' m' ≠ get_pgid t m) →
  ∃ w', set uri m t w = (Ok (), w')
        ∧ data w' = dict_set uri (m, t) (data w)
        ∧ __getitem__ uri w' = (Ok (m, t), w').
Proof.
  intros -> Hpair Hpgid. unfold set. rewrite setitem_eq, decide_True by done.
  apply by_db_table_None in Hpair. rewrite Hpair.
  rewrite decide_False.
  - eexists. split_and!; [done | |].
    + simpl. by rewrite mirror_set_data.
    + apply getitem_stored; [apply format_uri_colon|].
      simpl. apply dict_get_set_eq.
  - intros (k' & m' & t' & Hin & Heq)%elem_of_pg_function_names.
    by eapply Hpgid.
Qed.

(** X8: a call on one uri leaves the other uris alone: whatever
    [set(uri, ...)] or [delete(uri)] returns, a lookup of another uri gives
    afterwards what it gave before. *)
Theorem other_uris_untouched uri uri' m t w :
  uri ≠ uri' →
  (__getitem__ uri' (set uri m t w).2).1 = (__getitem__ uri' w).1
  ∧ (__getitem__ uri' (delete uri w).2).1 = (__getitem__ uri' w).1.
Proof.
  intros Hne.
  assert (∀ w1, dict_get uri' (data w1) = dict_get uri' (data w) →
                (__getitem__ uri' w1).1 = (__getitem__ uri' w).1) as Hsame.
  { intros w1 Hg. rewrite !getitem_eq. case_decide; [|done].
    rewrite Hg. by destruct (dict_get uri' (data w)). }
  split; apply Hsame.
  - destruct (set_outcome uri m t w) as [[e He]|(He & _)]; rewrite He; [done|].
    simpl. rewrite mirror_set_data. by apply dict_get_set_ne.
  - destruct (delete_outcome uri w) as [[e He]|(m' & t' & _ & _ & He)];
      rewrite He; [done|].
    rewrite mirror_delete_data. simpl. by apply dict_get_del_other.
Qed.

(** *** What holds in every reachable world *)

(** X9: in every world the process can reach, no uri is stored twice, every
    stored uri is the [label:name] of its entry, and any two stored entries
    with the same table and trigger name hold equal triggers. *)
Theorem reachable_invariants w :
  reachable w →
  NoDup (data w).*1
  ∧ (∀ k m t, (k, (m, t)) ∈ data w → k = format_uri (label m) (name t))
  ∧ (∀ k1 m1 t1 k2 m2 t2,
       (k1, (m1, t1)) ∈ data w → (k2, (m2, t2)) ∈ data w →
       db_table m1 = db_table m2 → name t1 = name t2 → t1 = t2).
Proof. intros Hr. by apply reachable_catalog_ok in Hr. Qed.

(** X10: the two derived views reflect exactly the stored entries.  In a
    reachable world [by_db_table] maps a (table, name) pair to a trigger
    exactly when some stored entry has that table, name and trigger; and in
    any world [pg_function_names] holds an identifier exactly when some
    stored entry produces it. *)
Theorem views_reflect_entries w tb n t x :
  reachable w →
  (by_db_table w !! (tb, n) = Some t ↔
   ∃ k m, (k, (m, t)) ∈ data w ∧ db_table m = tb ∧ name t = n)
  ∧ (by_db_table w !! (tb, n) = None ↔
     ∀ k m t', (k, (m, t')) ∈ data w → (db_table m, name t') ≠ (tb, n))
  ∧ (x ∈ pg_function_names w ↔
     ∃ k m t', (k, (m, t')) ∈ data w ∧ get_pgid t' m = x).
Proof.
  intros (_ & _ & Hu)%reachable_catalog_ok. split_and!.
  - split.
    + intros (k & m & Hin & [= Htab Hname])%by_db_table_Some. by exists k, m.
    + intros (k & m & Hin & <- & <-). by eapply by_db_table_stored.
  - apply by_db_table_None.
  - apply elem_of_pg_function_names.
Qed.

(** X11: a stored trigger is never replaced in place.  In a reachable
    world, when [uri] holds [(model, t0)] and [set(uri, model, t)]
    succeeds, [t] is [t0] and the uri still holds [(model, t0)]. *)
Theorem stored_trigger_not_replaced w uri m t0 t w' :
  reachable w →
  dict_get uri (data w) = Some (m, t0) →
  set uri m t w = (Ok (), w') →
  t = t0 ∧ dict_get uri (data w') = Some (m, t0).
Proof.
  intros (Hnd & Hkc & Hu)%reachable_catalog_ok Hg Hset.
  destruct (set_outcome uri m t w) as [[e He]|(He & Hk & Hc)]; [congruence|].
  apply dict_get_elem in Hg as Hin.
  assert (name t = name t0) as Hname.
  { apply (format_uri_inj_name (label m)). rewrite <- Hk. by apply Hkc. }
  assert (t = t0) as ->.
  { pose proof (by_db_table_stored w uri m t0 Hu Hin) as Hf.
    rewrite <- Hname in Hf. destruct Hc as [Hc|[Hc _]]; congruence. }
  split; [done|].
  assert (w' = set_data (dict_set uri (m, t0)) (mirror_set m t0 w)) as ->
    by congruence.
  simpl. apply dict_get_set_eq.
Qed.

(** *** The order of the listing *)

(** X12: a uri registered for the first time is listed last: in a reachable
    world, after a successful [set] on a uri that was not stored,
    [registered()] returns the entries listed before, in their order,
    followed by the new one. *)
Theorem registered_after_set w uri m t w1 :
  reachable w → dict_get uri (data w) = None →
  set uri m t w = (Ok (), w1) →
  registered [] w1 = (Ok ((data w).*2 ++ [(m, t)]), w1).
Proof.
  intros Hr Hfresh Hset.
  assert (reachable w1) as Hr1.
  { change w1 with (Ok (), w1).2. rewrite <- Hset.
    apply (reachable_call w (CallSet uri m t) Hr). }
  destruct (set_outcome uri m t w) as [[e He]|(He & _)]; [congruence|].
  assert (data w1 = data w ++ [(uri, (m, t))]) as Hd.
  { assert (w1 = set_data (dict_set uri (m, t)) (mirror_set m t w)) as ->
      by congruence.
    simpl. rewrite mirror_set_data. by apply dict_set_fresh. }
  unfold registered. rewrite (lookup_all_keys w1 Hr1), Hd.
  by rewrite fmap_app.
Qed.

(** X13: registering and deleting a fresh uri restores the store, not the
    metadata.  After a successful [set] on a uri that was not stored,
    [delete] succeeds and the store is as before the [set]; with
    synchronization on and the trigger in neither collection before, the
    trigger is again in neither, but both collections now exist. *)
Theorem set_then_delete_restores_store w uri m t w1 :
  dict_get uri (data w) = None →
  set uri m t w = (Ok (), w1) →
  ∃ w2, delete uri w1 = (Ok (), w2)
        ∧ data w2 = data w
        ∧ (migrations w = true →
           t ∉ getattr_triggers w m → t ∉ original_attrs_get w m →
           (t ∉ getattr_triggers w2 m) ∧ (t ∉ original_attrs_get w2 m)
           ∧ is_Some (meta_triggers w2 !! m)
           ∧ is_Some (original_attrs w2 !! m)).
Proof.
  intros Hfresh Hset.
  destruct (set_outcome uri m t w) as [[e He]|(He & Hk & _)]; [congruence|].
  assert (w1 = set_data (dict_set uri (m, t)) (mirror_set m t w)) as ->
    by congruence.
  unfold delete. rewrite delitem_eq.
  rewrite decide_True by (rewrite Hk; apply format_uri_colon).
  assert (dict_del uri (dict_set uri (m, t) (data (mirror_set m t w))) = data w)
    as Hstore by (rewrite mirror_set_data; by apply dict_del_set_fresh).
  simpl. rewrite dict_get_set_eq.
  destruct (migrations w) eqn:Hm.
  2:{ eexists. unfold mirror_delete. simpl. rewrite mirror_set_migrations, Hm.
      split_and!; [done | exact Hstore |]. done. }
  pose proof (mirror_set_triggers_count m t w Hm) as Hcl.
  pose proof (mirror_set_original_count m t w Hm) as Hco.
  destruct (mirror_set_established m t w Hm) as [Hl Ho].
  apply getattr_triggers_elem in Hl as (l & Hl & Hinl).
  apply original_attrs_get_elem in Ho as (o & Ho & Hino).
  unfold getattr_triggers in Hcl at 1. unfold original_attrs_get in Hco at 1.
  rewrite Hl in Hcl. rewrite Ho in Hco.
  unfold mirror_delete. simpl. rewrite mirror_set_migrations, Hm, Hl, Ho.
  apply py_in_true in Hinl as Hp. rewrite Hp.
  pose proof (elem_deref_valid _ _ _ Hinl) as Hvl.
  pose proof (elem_deref_valid _ _ _ Hino) as Hvo.
  pose proof (count_remove_first t _ Hinl) as Hrl.
  pose proof (count_remove_first t _ Hino) as Hro.
  simpl. destruct (decide (o = l)) as [->|Hol].
  - rewrite deref_insert_eq by done.
    destruct (py_in t (remove_first t (deref (heap (mirror_set m t w)) l)))
      eqn:Hq.
    + eexists. split_and!; [done | exact Hstore |]. intros _ Hnl Hno.
      apply count_zero in Hnl. apply py_in_true, count_pos in Hq. lia.
    + eexists. split_and!; [done | exact Hstore |]. intros _ Hnl Hno.
      apply py_in_false in Hq.
      unfold getattr_triggers, original_attrs_get. simpl. rewrite Hl, Ho.
      rewrite deref_insert_eq by done. by eauto.
  - rewrite deref_insert_ne by done. apply py_in_true in Hino as Hq.
    rewrite Hq. eexists. split_and!; [done | exact Hstore |]. intros _ Hnl Hno.
    apply count_zero in Hnl, Hno.
    unfold getattr_triggers, original_attrs_get. simpl. rewrite Hl, Ho.
    rewrite deref_insert_ne by done.
    rewrite !deref_insert_eq by (rewrite ?length_insert; done).
    rewrite deref_insert_ne by done.
    split_and!; [| |by eauto..]; apply count_zero; lia.
Qed.

(** *** The two collections under [delete] *)

Lemma delete_reachable w uri m t :
  reachable w → dict_get uri (data w) = Some (m, t) →
  delete uri w = mirror_delete m t (set_data (dict_del uri) w).
Proof.
  intros (_ & Hkc & _)%reachable_catalog_ok Hg. unfold delete.
  rewrite delitem_eq, decide_True by (by eapply stored_key_colon).
  by rewrite Hg.
Qed.

(** X14: when [_meta.triggers] and [original_attrs["triggers"]] are one
    list object (the case of the comment in [__delitem__]), [delete] of a
    stored entry whose trigger is in that list succeeds; the list loses the
    trigger once when it held it once, and twice when it held it more
    often, since the membership test then sees the second copy. *)
Theorem delete_shared_collection w uri m t l :
  reachable w → dict_get uri (data w) = Some (m, t) →
  migrations w = true →
  meta_triggers w !! m = Some l → original_attrs w !! m = Some l →
  t ∈ deref (heap w) l →
  ∃ w', delete uri w = (Ok (), w')
        ∧ getattr_triggers w' m = original_attrs_get w' m
        ∧ getattr_triggers w' m
          = if decide (count t (deref (heap w) l) = 1)
            then remove_first t (deref (heap w) l)
            else remove_first t (remove_first t (deref (heap w) l)).
Proof.
  intros Hr Hg Hm Hl Ho Hin. rewrite (delete_reachable w uri m t Hr Hg).
  unfold mirror_delete. simpl. rewrite Hm, Hl, Ho.
  apply py_in_true in Hin as Hp. rewrite Hp. simpl.
  pose proof (elem_deref_valid _ _ _ Hin) as Hv.
  pose proof (count_remove_first t _ Hin) as Hc.
  rewrite deref_insert_eq by done.
  destruct (py_in t (remove_first t (deref (heap w) l))) eqn:Hq.
  - eexists. split; [done|].
    unfold getattr_triggers, original_attrs_get. simpl. rewrite Hl, Ho.
    split; [done|]. rewrite !deref_insert_eq by (rewrite ?length_insert; done).
    apply py_in_true, count_pos in Hq. rewrite decide_False by lia. done.
  - eexists. split; [done|].
    unfold getattr_triggers, original_attrs_get. simpl. rewrite Hl, Ho.
    split; [done|]. rewrite deref_insert_eq by done.
    apply py_in_false, count_zero in Hq. rewrite decide_True by lia. done.
Qed.

(** X15: when the two collections are two list objects, [delete] of a
    stored entry whose trigger is in the live one succeeds; the live list
    loses its first copy of the trigger, the original-declaration list
    loses its first copy when it has one and is left as it is otherwise;
    the other elements keep their order. *)
Theorem delete_separate_collections w uri m t l o :
  reachable w → dict_get uri (data w) = Some (m, t) →
  migrations w = true →
  meta_triggers w !! m = Some l → original_attrs w !! m = Some o →
  l ≠ o → t ∈ deref (heap w) l → o < length (heap w) →
  ∃ w', delete uri w = (Ok (), w')
        ∧ getattr_triggers w' m = remove_first t (deref (heap w) l)
        ∧ original_attrs_get w' m = remove_first t (deref (heap w) o).
Proof.
  intros Hr Hg Hm Hl Ho Hlo Hin Hvo. rewrite (delete_reachable w uri m t Hr Hg).
  unfold mirror_delete. simpl. rewrite Hm, Hl, Ho.
  apply py_in_true in Hin as Hp. rewrite Hp. simpl.
  pose proof (elem_deref_valid _ _ _ Hin) as Hv.
  rewrite deref_insert_ne by done.
  destruct (py_in t (deref (heap w) o)) eqn:Hq.
  - eexists. split; [done|].
    unfold getattr_triggers, original_attrs_get. simpl. rewrite Hl, Ho.
    assert (o ≠ l) as Hol by congruence.
    rewrite (deref_insert_ne _ o l) by done.
    rewrite (deref_insert_ne _ l o) by done.
    rewrite !deref_insert_eq by (rewrite ?length_insert; done). done.
  - eexists. split; [done|].
    unfold getattr_triggers, original_attrs_get. simpl. rewrite Hl, Ho.
    rewrite deref_insert_eq, deref_insert_ne by done. split; [done|].
    apply py_in_false in Hq. clear -Hq.
    induction (deref (heap w) o) as [|y ys IH]; simpl; [done|].
    apply not_elem_of_cons in Hq as [Hne Hq]. rewrite decide_False by done.
    by rewrite <- IH.
Qed.

(** *** Synchronization off *)

(** X16: while [features.migrations()] is false the registry touches its
    store only: a [set] that succeeds stores the entry and changes nothing
    else, and in a reachable world [delete] of a stored uri always succeeds
    and only takes the entry out. *)
Theorem sync_off_store_only w uri m t v :
  migrations w = false →
  (∀ w', set uri m t w = (Ok (), w') →
         w' = set_data (dict_set uri (m, t)) w)
  ∧ (reachable w → dict_get uri (data w) = Some v →
     delete uri w = (Ok (), set_data (dict_del uri) w)).
Proof.
  intros Hm. split.
  - intros w' Hset.
    destruct (set_outcome uri m t w) as [[e He]|(He & _)]; [congruence|].
    unfold mirror_set in He. rewrite Hm in He. congruence.
  - intros Hr Hg. destruct v as [m' t'].
    rewrite (delete_reachable w uri m' t' Hr Hg).
    unfold mirror_delete. simpl. by rewrite Hm.
Qed.

(** *** The metadata under [set] *)

Lemma mirror_set_frame m t w :
  (∃ new, heap (mirror_set m t w) = heap w ++ new ∧ length new ≤ 2)
  ∧ (∀ m', m' ≠ m →
       meta_triggers (mirror_set m t w) !! m' = meta_triggers w !! m'
       ∧ original_attrs (mirror_set m t w) !! m' = original_attrs w !! m').
Proof.
  unfold mirror_set, mirror_original, mirror_live.
  destruct (migrations w).
  2:{ split; [exists []; split; [by rewrite app_nil_r | simpl; lia] | done]. }
  destruct (py_in t (getattr_triggers w m)).
  - destruct (py_in t (original_attrs_get w m)); simpl.
    + split; [exists []; split; [by rewrite app_nil_r | simpl; lia] | done].
    + split; [eexists [_]; split; [done | simpl; lia]|].
      intros m' Hne. by rewrite lookup_insert_ne.
  - destruct (py_in t (original_attrs_get _ m)); simpl.
    + split; [eexists [_]; split; [done | simpl; lia]|].
      intros m' Hne. by rewrite lookup_insert_ne.
    + split; [eexists [_; _]; split; [by rewrite <- app_assoc | simpl; lia]|].
      intros m' Hne. by rewrite !lookup_insert_ne.
Qed.

(** X17: [set] never changes a list in place and never rebinds the
    collections of another model: whatever it returns, the list objects
    that existed are as they were (at most two new ones are added), and a
    model other than the one registered sees the collections it saw, also
    when it shares a list object with the registered model. *)
Theorem set_keeps_other_metadata uri m m' t w :
  m' ≠ m → heap_closed w →
  (∀ l, l < length (heap w) →
        deref (heap (set uri m t w).2) l = deref (heap w) l)
  ∧ length (heap (set uri m t w).2) ≤ length (heap w) + 2
  ∧ meta_triggers (set uri m t w).2 !! m' = meta_triggers w !! m'
  ∧ original_attrs (set uri m t w).2 !! m' = original_attrs w !! m'
  ∧ getattr_triggers (set uri m t w).2 m' = getattr_triggers w m'
  ∧ original_attrs_get (set uri m t w).2 m' = original_attrs_get w m'.
Proof.
  intros Hne [Hcl Hco].
  destruct (set_outcome uri m t w) as [[e He]|(He & _)]; rewrite He; simpl.
  { split_and!; [done | lia | done..]. }
  destruct (mirror_set_frame m t w) as [(new & Hheap & Hlen) Hnames].
  destruct (Hnames m' Hne) as [Hmt Hoa].
  rewrite Hheap. split_and!; [| |done..| |].
  - intros l Hl. by apply deref_app_l.
  - rewrite length_app. lia.
  - unfold getattr_triggers. simpl. rewrite Hmt, Hheap.
    destruct (meta_triggers w !! m') as [l|] eqn:Hl; [|done].
    apply deref_app_l. by eapply Hcl.
  - unfold original_attrs_get. simpl. rewrite Hoa, Hheap.
    destruct (original_attrs w !! m') as [o|] eqn:Ho; [|done].
    apply deref_app_l. by eapply Hco.
Qed.

(** X18: with synchronization on, a successful [set] leaves a collection
    that holds the trigger as it is, and otherwise binds the model to the
    old elements, in their order, followed by the trigger. *)
Theorem set_appends_last uri m t w w' :
  migrations w = true → heap_closed w →
  set uri m t w = (Ok (), w') →
  getattr_triggers w' m
  = (if py_in t (getattr_triggers w m) then getattr_triggers w m
     else getattr_triggers w m ++ [t])
  ∧ original_attrs_get w' m
    = (if py_in t (original_attrs_get w m) then original_attrs_get w m
       else original_attrs_get w m ++ [t]).
Proof.
  intros Hm [_ Hco] Hset.
  destruct (set_outcome uri m t w) as [[e He]|(He & _)]; [congruence|].
  assert (w' = set_data (dict_set uri (m, t)) (mirror_set m t w)) as ->
    by congruence.
  change (getattr_triggers (mirror_set m t w) m
          = (if py_in t (getattr_triggers w m) then getattr_triggers w m
             else getattr_triggers w m ++ [t])
          ∧ original_attrs_get (mirror_set m t w) m
            = (if py_in t (original_attrs_get w m) then original_attrs_get w m
               else original_attrs_get w m ++ [t])).
  unfold mirror_set. rewrite Hm. split.
  - rewrite mirror_original_triggers; [apply mirror_live_triggers|].
    apply count_pos. rewrite mirror_live_triggers, count_guarded_append. lia.
  - rewrite mirror_original_original.
    assert (original_attrs_get (mirror_live m t w) m = original_attrs_get w m)
      as ->; [|done].
    destruct (mirror_live_original m t w) as [Heq|(Hnil & Hnin & Heq)]; [done|].
    exfalso. unfold mirror_live in Heq.
    apply py_in_false in Hnin as Hp. rewrite Hp in Heq.
    unfold original_attrs_get, assign_triggers in Heq, Hnil. simpl in Heq.
    destruct (original_attrs w !! m) as [o|] eqn:Ho.
    + rewrite deref_app_l in Heq by (by eapply Hco).
      rewrite Hnil in Heq. by destruct (getattr_triggers w m).
    + by destruct (getattr_triggers w m).
Qed.

End registry_more.

(** ** The decorator *)

Section decorator_facts.
Context {Model : Type} `{Countable Model}.
Context {Trigger : Type} `{EqDecision Trigger}.
Variable trigger_register :
  Trigger → Model → M (Model := Model) (Trigger := Trigger) unit.

Lemma register_each_app ts1 ts2 (model_class : Model) w :
  register_each trigger_register (ts1 ++ ts2) model_class w =
    match register_each trigger_register ts1 model_class w with
    | (Ok _, w1) => register_each trigger_register ts2 model_class w1
    | (Raise e, w1) => (Raise e, w1)
    end.
Proof.
  revert w. induction ts1 as [|t ts1 IH]; intros w; simpl; [done|].
  unfold mbind, M_bind.
  destruct (trigger_register t model_class w) as [[[]|e] w1]; [|done].
  apply IH.
Qed.

(** X19: the decorator calls [trigger.register(model_class)] on each
    trigger, in the order given, and stops at the first call that raises.
    With no trigger it returns the class and leaves the world alone; with
    one trigger it does what [trigger.register] does on that trigger and
    the class, and returns the class when that returns; registering
    [ts1 ++ ts2] is registering [ts1] and then, if that returned, [ts2] in
    the world it left, the worlds of the calls already made being kept on
    an exception; and when it returns, it returns the class it was
    given. *)
Theorem register_in_order t ts1 ts2 (model_class : Model) w :
  register trigger_register [] model_class w = (Ok model_class, w)
  ∧ register trigger_register [t] model_class w =
      match trigger_register t model_class w with
      | (Ok _, w1) => (Ok model_class, w1)
      | (Raise e, w1) => (Raise e, w1)
      end
  ∧ register trigger_register (ts1 ++ ts2) model_class w =
      match register trigger_register ts1 model_class w with
      | (Ok _, w1) => register trigger_register ts2 model_class w1
      | (Raise e, w1) => (Raise e, w1)
      end
  ∧ (∀ c w', register trigger_register ts1 model_class w = (Ok c, w') →
             c = model_class).
Proof.
  split_and!.
  - done.
  - unfold register. simpl. unfold mbind, M_bind, mret, M_ret.
    by destruct (trigger_register t model_class w) as [[[]|e] w1].
  - unfold register, mbind, M_bind. rewrite register_each_app.
    by destruct (register_each trigger_register ts1 model_class w)
      as [[[]|e] w1].
  - intros c w'. unfold register, mbind, M_bind, mret, M_ret.
    destruct (register_each trigger_register ts1 model_class w)
      as [[[]|e] w1]; [|done].
    by intros [= <- _].
Qed.

End decorator_facts.

(** ** The properties on the concrete instance *)

Import Example.

Lemma no_colon_notaurl : ":"%char ∉ chars "notaurl".
Proof. apply split_length_one. reflexivity. Qed.

Lemma reachable_foo_registered sync : reachable (foo_registered sync).
Proof.
  apply (reachable_call (empty sync) (CallSet "app.Foo:t1" foo t1)).
  by apply reachable_start.
Qed.

Lemma reachable_foo_diverged : reachable foo_diverged.
Proof. by apply (reachable_env _ _ (reachable_foo_registered true)). Qed.

Lemma reachable_foo_undeclared : reachable foo_undeclared.
Proof. by apply (reachable_env _ _ (reachable_foo_registered true)). Qed.

Lemma reachable_foo_unmirrored : reachable foo_unmirrored.
Proof. by apply (reachable_env _ _ (reachable_foo_registered false)). Qed.

Lemma malformed_uri_get_delete_witness :
  __getitem__ "notaurl" (foo_registered true)
    = (Raise MalformedURI, foo_registered true)
  ∧ registered ["notaurl"] (foo_registered true)
    = (Raise MalformedURI, foo_registered true)
  ∧ delete "notaurl" (foo_registered true)
    = (Raise MalformedURI, foo_registered true).
Proof.
  apply (malformed_uri_get_delete "notaurl" (foo_registered true)).
  apply no_colon_notaurl.
Defined.

Lemma set_uri_without_colon_witness :
  set "notaurl" foo t1 (empty true) = (Raise AssertionError, empty true).
Proof.
  apply (set_uri_without_colon "notaurl" foo t1 (empty true)).
  apply no_colon_notaurl.
Defined.

(** C8, as stated, fails: [set("notaurl", ...)] on the empty catalog raises
    the AssertionError, not MalformedURI. *)
Lemma set_uri_without_colon_not_malformed :
  ¬ (∀ (uri : string) (m : model) (t : trigger) (w : world),
       ":"%char ∉ chars uri → (set uri m t w).1 = Raise MalformedURI).
Proof.
  intros Hall.
  specialize (Hall "notaurl" foo t1 (empty true) no_colon_notaurl).
  vm_compute in Hall. discriminate.
Qed.

Lemma duplicate_name_rejected_witness :
  set "app.FooProxy:t1" foo_proxy t1' (foo_registered true)
  = (Raise DuplicateName, foo_registered true).
Proof.
  apply (duplicate_name_rejected (foo_registered true)
           "app.Foo:t1" foo t1 "app.FooProxy:t1" foo_proxy t1').
  - apply reachable_foo_registered.
  - vm_compute. left.
  - reflexivity.
  - reflexivity.
  - discriminate.
  - reflexivity.
Defined.

Lemma duplicate_function_id_rejected_witness :
  (db_table log_x, name check) ≠ (db_table log, name check_x)
  ∧ set "app.Log:check_x" log check_x log_x_registered
    = (Raise DuplicateFunctionId, log_x_registered)
  ∧ ("app.LogX:check", (log_x, check))
      ∈ data (set "app.Log:check_x" log check_x log_x_registered).2.
Proof.
  assert (data log_x_registered = [("app.LogX:check", (log_x, check))]) as Hd
    by (vm_compute; reflexivity).
  apply (duplicate_function_id_rejected log_x_registered
           "app.LogX:check" log_x check "app.Log:check_x" log check_x).
  - rewrite Hd. left.
  - reflexivity.
  - reflexivity.
  - intros k' m' t'. rewrite Hd.
    intros [= -> -> ->]%list_elem_of_singleton. discriminate.
Defined.

Lemma set_twice_witness :
  set "app.Foo:t1" foo t1 (foo_registered true)
  = (Ok (), foo_registered true)
  ∧ filter (λ e, e.1 = "app.Foo:t1") (data (foo_registered true))
    = [("app.Foo:t1", (foo, t1))]
  ∧ (count t1 (getattr_triggers (empty true) foo) ≤ 1 →
     count t1 (getattr_triggers (foo_registered true) foo) ≤ 1)
  ∧ (count t1 (original_attrs_get (empty true) foo) ≤ 1 →
     count t1 (original_attrs_get (foo_registered true) foo) ≤ 1).
Proof.
  apply (set_twice (empty true) "app.Foo:t1" foo t1 (foo_registered true)).
  - by apply reachable_start.
  - vm_compute. reflexivity.
Defined.

Lemma set_get_delete_round_trip_witness :
  __getitem__ "app.Foo:t1" (foo_registered true) = (Ok (foo, t1), (foo_registered true))
  ∧ registered ["app.Foo:t1"] (foo_registered true) = (Ok [(foo, t1)], (foo_registered true))
  ∧ ∃ w2, delete "app.Foo:t1" (foo_registered true) = (Ok (), w2)
          ∧ __getitem__ "app.Foo:t1" w2 = (Raise NotFound, w2)
          ∧ delete "app.Foo:t1" w2 = (Raise NotFound, w2).
Proof.
  apply (set_get_delete_round_trip (empty true) "app.Foo:t1" foo t1 (foo_registered true)).
  - reflexivity.
  - vm_compute. reflexivity.
Defined.


Lemma delete_absent_from_original_witness :
  ∃ w', delete "app.Foo:t1" foo_diverged = (Ok (), w')
        ∧ dict_get "app.Foo:t1" (data w') = None
        ∧ original_attrs_get w' foo = original_attrs_get foo_diverged foo.
Proof.
  destruct (delete_absent_from_original foo_diverged "app.Foo:t1" foo t1 0 1)
    as (w' & Hdel & Hgone & Hsame).
  - apply reachable_foo_diverged.
  - reflexivity.
  - vm_compute. reflexivity.
  - vm_compute. left.
  - vm_compute. reflexivity.
  - exists w'. split_and!; [done..|]. apply Hsame.
    vm_compute. apply not_elem_of_nil.
Defined.

(** C7, as stated, fails: with no original-declaration collection at all,
    [delete] of a stored entry whose trigger is in the live collection raises
    the KeyError of [original_attrs["triggers"]]. *)
Lemma delete_without_original_collection :
  reachable foo_undeclared
  ∧ dict_get "app.Foo:t1" (data foo_undeclared) = Some (foo, t1)
  ∧ t1 ∈ getattr_triggers foo_undeclared foo
  ∧ original_attrs foo_undeclared !! foo = None
  ∧ (delete "app.Foo:t1" foo_undeclared).1 = Raise KeyError_original_attrs
  ∧ (delete "app.Foo:t1" foo_undeclared).1 ≠ Ok ().
Proof.
  split_and!.
  - apply reachable_foo_undeclared.
  - reflexivity.
  - vm_compute. left.
  - vm_compute. reflexivity.
  - vm_compute. reflexivity.
  - vm_compute. discriminate.
Qed.

Lemma delete_not_atomic_witness :
  (∀ e w', delete "app.Foo:t1" foo_unmirrored = (Raise e, w') →
     data w' = dict_del "app.Foo:t1" (data foo_unmirrored)
     ∧ dict_get "app.Foo:t1" (data w') = None
     ∧ meta_triggers w' = meta_triggers foo_unmirrored
     ∧ original_attrs w' = original_attrs foo_unmirrored
     ∧ ((e = AttributeError ∧ meta_triggers foo_unmirrored !! foo = None
         ∧ heap w' = heap foo_unmirrored)
        ∨ (e = ValueError_remove ∧ (t1 ∉ getattr_triggers foo_unmirrored foo)
           ∧ heap w' = heap foo_unmirrored)
        ∨ (e = KeyError_original_attrs
           ∧ original_attrs foo_unmirrored !! foo = None
           ∧ ∃ l, meta_triggers foo_unmirrored !! foo = Some l
                  ∧ heap w' = <[l := remove_first t1 (deref (heap foo_unmirrored) l)]>
                                (heap foo_unmirrored))))
  ∧ (migrations foo_unmirrored = true →
     t1 ∉ getattr_triggers foo_unmirrored foo →
     ∃ e, delete "app.Foo:t1" foo_unmirrored
          = (Raise e, set_data (dict_del "app.Foo:t1") foo_unmirrored)).
Proof.
  apply (delete_not_atomic foo_unmirrored "app.Foo:t1" foo t1).
  - apply reachable_foo_unmirrored.
  - reflexivity.
Defined.

(** C1, as stated, fails: [t1] registered on [foo] and then, equal and with
    the same (table, name) pair, on [foo_proxy] under a second uri; the
    function-identifier check is skipped and the two entries produce the
    same identifier. *)
Lemma pgid_shared_by_two_uris :
  ¬ (∀ (calls : list call) (w : world),
       run calls (empty true) = Some w → pgid_unique w).
Proof.
  intros Hall.
  pose (calls := [CallSet "app.Foo:t1" foo t1;
                  CallSet "app.FooProxy:t1" foo_proxy t1]).
  destruct (run calls (empty true)) as [w|] eqn:Hrun;
    [|vm_compute in Hrun; discriminate].
  specialize (Hall calls w Hrun).
  assert (data w = [("app.Foo:t1", (foo, t1));
                    ("app.FooProxy:t1", (foo_proxy, t1))]) as Hd.
  { vm_compute in Hrun. injection Hrun as <-. reflexivity. }
  apply (Hall "app.Foo:t1" foo t1 "app.FooProxy:t1" foo_proxy t1).
  - rewrite Hd. left.
  - rewrite Hd. right. left.
  - discriminate.
  - reflexivity.
Qed.

Lemma pgid_unique_when_registered_afresh_witness :
  match run_if afresh
          [CallSet "app.Foo:t1" foo t1; CallSet "app.Foo:t1" foo t1;
           CallSet "app.LogX:check" log_x check]
          (empty true) with
  | Some w =>
      dict_keys (data w) = ["app.Foo:t1"; "app.LogX:check"] ∧ pgid_unique w
  | None => False
  end.
Proof.
  destruct (run_if afresh _ (empty true)) as [w|] eqn:Hrun.
  - split.
    + vm_compute in Hrun. injection Hrun as <-. reflexivity.
    + apply (pgid_unique_when_registered_afresh _ (empty true) w eq_refl Hrun).
  - vm_compute in Hrun. discriminate.
Defined.

(** ** The further properties on the concrete instance *)

Lemma heap_closed_foo_declared : heap_closed foo_declared.
Proof.
  split; simpl; intros m l; rewrite lookup_singleton_Some;
    intros [_ <-]; lia.
Qed.

Lemma stored_entry_retrievable_witness :
  __getitem__ "app.Foo:t1" (foo_registered true)
  = (Ok (foo, t1), foo_registered true)
  ∧ registered ["app.Foo:t1"] (foo_registered true)
    = (Ok [(foo, t1)], foo_registered true).
Proof.
  apply (stored_entry_retrievable (foo_registered true) "app.Foo:t1" foo t1).
  - apply reachable_foo_registered.
  - vm_compute. left.
Defined.

Lemma registered_lists_all_witness :
  registered [] (foo_registered true)
  = (Ok (data (foo_registered true)).*2, foo_registered true).
Proof.
  apply (registered_lists_all (foo_registered true)).
  apply reachable_foo_registered.
Defined.

Lemma registered_first_failure_witness :
  registered (["app.Foo:t1"] ++ "notaurl" :: ["app.Foo:t1"])
             (foo_registered true)
  = (Raise MalformedURI, foo_registered true).
Proof.
  apply (registered_first_failure ["app.Foo:t1"] "notaurl" ["app.Foo:t1"]
           [(foo, t1)] MalformedURI (foo_registered true)).
  - constructor; [|constructor]. split; [|reflexivity].
    apply (format_uri_colon "app.Foo" "t1").
  - vm_compute. reflexivity.
Defined.

Lemma absent_uri_not_found_witness :
  __getitem__ "a:b:" (foo_registered true)
  = (Raise NotFound, foo_registered true)
  ∧ registered ["a:b:"] (foo_registered true)
    = (Raise NotFound, foo_registered true)
  ∧ delete "a:b:" (foo_registered true)
    = (Raise NotFound, foo_registered true).
Proof.
  apply (absent_uri_not_found "a:b:" (foo_registered true)).
  - apply (format_uri_colon "a" "b:").
  - reflexivity.
Defined.

Lemma set_raises_unchanged_witness :
  foo_registered true = foo_registered true
  ∧ ((DuplicateName = AssertionError
      ∧ "app.FooProxy:t1" ≠ format_uri (label foo_proxy) (name t1'))
     ∨ (DuplicateName = DuplicateName
        ∧ ∃ k' m' t', (k', (m', t')) ∈ data (foo_registered true)
                      ∧ db_table m' = db_table foo_proxy
                      ∧ name t' = name t1' ∧ t' ≠ t1')
     ∨ (DuplicateName = DuplicateFunctionId
        ∧ (∀ k' m' t', (k', (m', t')) ∈ data (foo_registered true) →
             (db_table m', name t') ≠ (db_table foo_proxy, name t1'))
        ∧ ∃ k' m' t', (k', (m', t')) ∈ data (foo_registered true)
                      ∧ get_pgid t' m' = get_pgid t1' foo_proxy)).
Proof.
  apply (set_raises_unchanged "app.FooProxy:t1" foo_proxy t1'
           (foo_registered true) DuplicateName (foo_registered true)).
  vm_compute. reflexivity.
Defined.

Lemma set_succeeds_when_fresh_witness :
  ∃ w', set "app.Foo:t1" foo t1 (empty true) = (Ok (), w')
        ∧ data w' = dict_set "app.Foo:t1" (foo, t1) (data (empty true))
        ∧ __getitem__ "app.Foo:t1" w' = (Ok (foo, t1), w').
Proof.
  apply (set_succeeds_when_fresh "app.Foo:t1" foo t1 (empty true)).
  - reflexivity.
  - by intros k' m' t' ?%elem_of_nil.
  - by intros k' m' t' ?%elem_of_nil.
Defined.

Lemma other_uris_untouched_witness :
  (__getitem__ "app.Foo:t1"
     (set "app.LogX:check" log_x check (foo_registered true)).2).1
  = (__getitem__ "app.Foo:t1" (foo_registered true)).1
  ∧ (__getitem__ "app.Foo:t1"
       (delete "app.LogX:check" (foo_registered true)).2).1
    = (__getitem__ "app.Foo:t1" (foo_registered true)).1.
Proof.
  apply (other_uris_untouched "app.LogX:check" "app.Foo:t1" log_x check
           (foo_registered true)).
  discriminate.
Defined.

Lemma reachable_invariants_witness :
  NoDup (data (foo_registered true)).*1
  ∧ (∀ k m t, (k, (m, t)) ∈ data (foo_registered true) →
              k = format_uri (label m) (name t))
  ∧ (∀ k1 m1 t1 k2 m2 t2,
       (k1, (m1, t1)) ∈ data (foo_registered true) →
       (k2, (m2, t2)) ∈ data (foo_registered true) →
       db_table m1 = db_table m2 → name t1 = name t2 → t1 = t2).
Proof.
  apply (reachable_invariants (foo_registered true)).
  apply reachable_foo_registered.
Defined.

Lemma views_reflect_entries_witness :
  (by_db_table (foo_registered true) !! ("foo", "t1") = Some t1 ↔
   ∃ k m, (k, (m, t1)) ∈ data (foo_registered true)
          ∧ db_table m = "foo" ∧ name t1 = "t1")
  ∧ (by_db_table (foo_registered true) !! ("foo", "t1") = None ↔
     ∀ k m t', (k, (m, t')) ∈ data (foo_registered true) →
               (db_table m, name t') ≠ ("foo", "t1"))
  ∧ ("pgtrigger_t1_foo" ∈ pg_function_names (foo_registered true) ↔
     ∃ k m t', (k, (m, t')) ∈ data (foo_registered true)
               ∧ get_pgid t' m = "pgtrigger_t1_foo").
Proof.
  apply (views_reflect_entries (foo_registered true) "foo" "t1" t1
           "pgtrigger_t1_foo").
  apply reachable_foo_registered.
Defined.

Lemma stored_trigger_not_replaced_witness :
  t1 = t1 ∧ dict_get "app.Foo:t1" (data (foo_registered true)) = Some (foo, t1).
Proof.
  apply (stored_trigger_not_replaced (foo_registered true) "app.Foo:t1"
           foo t1 t1 (foo_registered true)).
  - apply reachable_foo_registered.
  - reflexivity.
  - vm_compute. reflexivity.
Defined.

Lemma registered_after_set_witness :
  registered [] (set "app.LogX:check" log_x check (foo_registered true)).2
  = (Ok ((data (foo_registered true)).*2 ++ [(log_x, check)]),
     (set "app.LogX:check" log_x check (foo_registered true)).2).
Proof.
  apply (registered_after_set (foo_registered true) "app.LogX:check"
           log_x check).
  - apply reachable_foo_registered.
  - reflexivity.
  - vm_compute. reflexivity.
Defined.

Lemma set_then_delete_restores_store_witness :
  ∃ w2, delete "app.Foo:t1" (foo_registered true) = (Ok (), w2)
        ∧ data w2 = data (empty true)
        ∧ (migrations (empty true) = true →
           t1 ∉ getattr_triggers (empty true) foo →
           t1 ∉ original_attrs_get (empty true) foo →
           (t1 ∉ getattr_triggers w2 foo) ∧ (t1 ∉ original_attrs_get w2 foo)
           ∧ is_Some (meta_triggers w2 !! foo)
           ∧ is_Some (original_attrs w2 !! foo)).
Proof.
  apply (set_then_delete_restores_store (empty true) "app.Foo:t1" foo t1
           (foo_registered true)).
  - reflexivity.
  - vm_compute. reflexivity.
Defined.

Lemma delete_shared_collection_witness :
  ∃ w', delete "app.Foo:t1" foo_declared = (Ok (), w')
        ∧ getattr_triggers w' foo = original_attrs_get w' foo
        ∧ getattr_triggers w' foo
          = if decide (count t1 (deref (heap foo_declared) 0) = 1)
            then remove_first t1 (deref (heap foo_declared) 0)
            else remove_first t1 (remove_first t1 (deref (heap foo_declared) 0)).
Proof.
  apply (delete_shared_collection foo_declared "app.Foo:t1" foo t1 0).
  - by apply (reachable_env _ _ (reachable_foo_registered true)).
  - reflexivity.
  - reflexivity.
  - vm_compute. reflexivity.
  - vm_compute. reflexivity.
  - vm_compute. left.
Defined.

Lemma delete_separate_collections_witness :
  ∃ w', delete "app.Foo:t1" (foo_registered true) = (Ok (), w')
        ∧ getattr_triggers w' foo
          = remove_first t1 (deref (heap (foo_registered true)) 0)
        ∧ original_attrs_get w' foo
          = remove_first t1 (deref (heap (foo_registered true)) 1).
Proof.
  apply (delete_separate_collections (foo_registered true) "app.Foo:t1"
           foo t1 0 1).
  - apply reachable_foo_registered.
  - reflexivity.
  - reflexivity.
  - vm_compute. reflexivity.
  - vm_compute. reflexivity.
  - discriminate.
  - vm_compute. left.
  - vm_compute. lia.
Defined.

Lemma sync_off_store_only_witness :
  (∀ w', set "app.Foo:t1" foo t1 (foo_registered false) = (Ok (), w') →
         w' = set_data (dict_set "app.Foo:t1" (foo, t1)) (foo_registered false))
  ∧ (reachable (foo_registered false) →
     dict_get "app.Foo:t1" (data (foo_registered false)) = Some (foo, t1) →
     delete "app.Foo:t1" (foo_registered false)
     = (Ok (), set_data (dict_del "app.Foo:t1") (foo_registered false))).
Proof.
  apply (sync_off_store_only (foo_registered false) "app.Foo:t1" foo t1
           (foo, t1)).
  reflexivity.
Defined.

Lemma set_keeps_other_metadata_witness :
  (∀ l, l < length (heap foo_declared) →
        deref (heap (set "app.FooProxy:t1" foo_proxy t1 foo_declared).2) l
        = deref (heap foo_declared) l)
  ∧ length (heap (set "app.FooProxy:t1" foo_proxy t1 foo_declared).2)
    ≤ length (heap foo_declared) + 2
  ∧ meta_triggers (set "app.FooProxy:t1" foo_proxy t1 foo_declared).2 !! foo
    = meta_triggers foo_declared !! foo
  ∧ original_attrs (set "app.FooProxy:t1" foo_proxy t1 foo_declared).2 !! foo
    = original_attrs foo_declared !! foo
  ∧ getattr_triggers (set "app.FooProxy:t1" foo_proxy t1 foo_declared).2 foo
    = getattr_triggers foo_declared foo
  ∧ original_attrs_get (set "app.FooProxy:t1" foo_proxy t1 foo_declared).2 foo
    = original_attrs_get foo_declared foo.
Proof.
  apply (set_keeps_other_metadata "app.FooProxy:t1" foo_proxy foo t1
           foo_declared).
  - discriminate.
  - apply heap_closed_foo_declared.
Defined.

Lemma set_appends_last_witness :
  getattr_triggers (foo_registered true) foo
  = (if py_in t1 (getattr_triggers (empty true) foo)
     then getattr_triggers (empty true) foo
     else getattr_triggers (empty true) foo ++ [t1])
  ∧ original_attrs_get (foo_registered true) foo
    = (if py_in t1 (original_attrs_get (empty true) foo)
       then original_attrs_get (empty true) foo
       else original_attrs_get (empty true) foo ++ [t1]).
Proof.
  apply (set_appends_last "app.Foo:t1" foo t1 (empty true)
           (foo_registered true)).
  - reflexivity.
  - split; intros m l; simpl; by rewrite lookup_empty.
  - vm_compute. reflexivity.
Defined.

(** The decorator with two triggers of one name: the first is registered,
    the second raises, and the first stays registered. *)
Lemma register_in_order_witness :
  register register_by_set [t1] foo (empty true)
  = (Ok foo, foo_registered true)
  ∧ register register_by_set ([t1] ++ [t1']) foo (empty true)
    = (Raise DuplicateName, foo_registered true).
Proof.
  destruct (register_in_order register_by_set t1 [t1] [t1'] foo (empty true))
    as (_ & Hone & Happ & _).
  split.
  - rewrite Hone. vm_compute. reflexivity.
  - rewrite Happ, Hone. vm_compute. reflexivity.
Defined.
